(** * querySelectorPerpetual: a shallow embedding of [index.js]

    The library watches a document for elements matching a selector and
    runs a chain of array-style operations on each of them.  This file
    embeds the JavaScript of [index.js] as state-passing Rocq functions
    and states the properties of the natural-language specification
    about them.

    Conventions.
    - A JavaScript value is a [jsval]; DOM nodes are trees carrying the
      identity of each node, and identity (not structure) is what the
      [WeakMap] of the source is keyed by.
    - Code that can throw returns a [completion]; the state threaded
      through every function is the [world]: the document, the objects
      the caller can see, the closures created by each call of
      [querySelectorPerpetual], and the function property
      [querySelectorPerpetual.observer].
    - The selector engine, the functions the caller passes in and the
      engine's sorting of arrays with two or more elements belong to the
      platform and to the caller; the development is parametric in them
      ([Platform]).

    Inputs.  The model covers the inputs the source documents:
    - the selector is a string that parses as a selector ("a valid CSS
      selector"); the [SyntaxError] that [querySelectorAll] and
      [matches] throw for any other string is not modelled;
    - an options object is a plain, extensible object with data
      properties only (an object literal); getters, which
      [Object.assign] would run, and frozen or sealed objects, on which
      [Object.assign] throws, are not modelled;
    - a method called on the handle is one of its own properties or a
      name that is no property at all; the properties the handle
      inherits from [Object.prototype] are not modelled.
    Every statement below about a call, a chained method or a delivery
    is a statement about such inputs. *)

From Stdlib Require Import ZArith String List Lia.
From stdpp Require Import base option list gmap strings.

Local Open Scope string_scope.
Local Open Scope list_scope.
Local Set Warnings "-register-all".

(** ** Values *)

(** Identities of nodes, of the caller's functions and objects, and of
    registrations (the position of the closure in call order). *)
Abbreviation node_id := nat (only parsing).
Abbreviation funid := nat (only parsing).
Abbreviation loc := nat (only parsing).
Abbreviation regid := nat (only parsing).

(** A DOM node with its subtree.  The first field is the identity. *)
Inductive node : Type :=
| DocumentNode (id : node_id) (childNodes : list node)
| ElementNode (id : node_id) (tagName : string) (classList : list string)
              (childNodes : list node)
| TextNode (id : node_id) (data : string)
| CommentNode (id : node_id) (data : string).

Definition ident (n : node) : node_id :=
  match n with
  | DocumentNode i _ | ElementNode i _ _ _ | TextNode i _ | CommentNode i _ => i
  end.

Definition childNodes_of (n : node) : list node :=
  match n with
  | DocumentNode _ ks | ElementNode _ _ _ ks => ks
  | TextNode _ _ | CommentNode _ _ => []
  end.

(** [Node.ELEMENT_NODE] and the [nodeType] of the modelled kinds. *)
Definition ELEMENT_NODE : Z := 1.

Definition nodeType (n : node) : Z :=
  match n with
  | ElementNode _ _ _ _ => 1
  | TextNode _ _ => 3
  | CommentNode _ _ => 8
  | DocumentNode _ _ => 9
  end%Z.

Inductive jsval : Type :=
| VUndefined
| VNull
| VBool (b : bool)
| VNum (n : Z)
| VStr (s : string)
| VNode (n : node)
| VFun (f : funid)
| VArr (items : list jsval)
| VHandle (r : regid).

(** [ToBoolean]. *)
Definition to_boolean (v : jsval) : bool :=
  match v with
  | VUndefined | VNull => false
  | VBool b => b
  | VNum n => negb (n =? 0)%Z
  | VStr s => negb (String.eqb s "")
  | VNode _ | VFun _ | VArr _ | VHandle _ => true
  end.

Inductive error : Type :=
| TypeError
| Thrown (v : jsval).

Inductive completion (A : Type) : Type :=
| Normal (a : A)
| Throw (e : error).
Arguments Normal {A} a.
Arguments Throw {A} e.

(** A function object of the caller: its [length] (number of declared
    parameters), its own integer-indexed properties ([f[i]], [undefined]
    where there is none, as for every function that has not been given
    such properties by hand) and what a call returns or throws. *)
Record jsfun : Type := {
  fn_length : nat;
  fn_indexed : nat -> jsval;
  fn_body : list jsval -> completion jsval
}.

(** ** The operation pipeline and the closures *)

(** [addOperation] is only ever called with these four names. *)
Inductive opname : Type := ForEach | Map | Filter | Sort.

Record operation : Type := {
  name : opname;
  func : jsval
}.

(** The variables captured by one call of [querySelectorPerpetual]. *)
Record registration : Type := {
  selector : string;
  options : gmap string jsval;
  target : jsval;
  elementInvocationMap : gmap node_id bool;
  operations : list operation
}.

Record MutationObserverInit : Type := {
  childList : bool;
  subtree : bool
}.

Record MutationRecord : Type := {
  addedNodes : list node;
  removedNodes : list node
}.

Record world : Type := {
  (** the document as it is now *)
  document : node;
  (** plain objects the caller holds (option objects): extensible, with
      data properties only; a [loc] is an index *)
  heap : list (gmap string jsval);
  (** one entry per call of [querySelectorPerpetual], in call order *)
  closures : list registration;
  (** [querySelectorPerpetual.observer]: the closure its callback belongs to *)
  observer : option regid;
  (** how many times [new MutationObserver] has run *)
  constructed : nat;
  (** the subscriptions installed with [observe] *)
  observed : list (node * MutationObserverInit);
  (** every call of a caller's function, oldest first *)
  calls : list (funid * list jsval);
  (** every call of [applyOperations], oldest first *)
  applied : list (regid * node)
}.

(** ** Platform *)

Class Platform : Type := {
  (** the caller's function objects *)
  fn : funid -> jsfun;
  (** [node.matches(selector)] for a selector that parses; what the
      engine does with a string that does not parse (it throws a
      [SyntaxError]) is outside the model *)
  node_matches : string -> node -> bool;
  (** [Array.prototype.sort] on two or more elements: the calls of the
      comparator it makes and its outcome *)
  engine_sort : jsval -> list jsval ->
                list (funid * list jsval) * completion (list jsval)
}.

(** ** State and exceptions *)

Definition M (A : Type) : Type := world -> completion A * world.

Definition ret {A} (a : A) : M A := fun w => (Normal a, w).
Definition throw {A} (e : error) : M A := fun w => (Throw e, w).
Definition bind {A B} (m : M A) (k : A -> M B) : M B :=
  fun w => match m w with
           | (Normal a, w') => k a w'
           | (Throw e, w') => (Throw e, w')
           end.
Definition gets {A} (f : world -> A) : M A := fun w => (Normal (f w), w).
Definition modify (f : world -> world) : M unit := fun w => (Normal tt, f w).
Definition lift {A} (c : completion A) : M A := fun w => (c, w).

Notation "'let*' x ':=' m 'in' k" := (bind m (fun x => k))
  (at level 10, x name, m at level 100, k at level 200).
Notation "m ';;' k" := (bind m (fun _ => k))
  (at level 100, k at level 200, right associativity).

(** [Array.prototype.forEach.call(items, body)] as the source uses it on
    mutation lists and node lists: a throw ends the loop. *)
Fixpoint for_each {A} (items : list A) (body : A -> M unit) : M unit :=
  match items with
  | [] => ret tt
  | x :: rest => body x ;; for_each rest body
  end.

(** Field updates. *)
Definition with_heap (h : list (gmap string jsval)) (w : world) : world :=
  {| document := document w; heap := h; closures := closures w;
     observer := observer w; constructed := constructed w;
     observed := observed w; calls := calls w; applied := applied w |}.

Definition with_closures (c : list registration) (w : world) : world :=
  {| document := document w; heap := heap w; closures := c;
     observer := observer w; constructed := constructed w;
     observed := observed w; calls := calls w; applied := applied w |}.

Definition with_observer (o : option regid) (w : world) : world :=
  {| document := document w; heap := heap w; closures := closures w;
     observer := o; constructed := constructed w;
     observed := observed w; calls := calls w; applied := applied w |}.

Definition with_constructed (n : nat) (w : world) : world :=
  {| document := document w; heap := heap w; closures := closures w;
     observer := observer w; constructed := n;
     observed := observed w; calls := calls w; applied := applied w |}.

Definition with_observed (o : list (node * MutationObserverInit)) (w : world) : world :=
  {| document := document w; heap := heap w; closures := closures w;
     observer := observer w; constructed := constructed w;
     observed := o; calls := calls w; applied := applied w |}.

Definition with_calls (c : list (funid * list jsval)) (w : world) : world :=
  {| document := document w; heap := heap w; closures := closures w;
     observer := observer w; constructed := constructed w;
     observed := observed w; calls := c; applied := applied w |}.

Definition with_applied (a : list (regid * node)) (w : world) : world :=
  {| document := document w; heap := heap w; closures := closures w;
     observer := observer w; constructed := constructed w;
     observed := observed w; calls := calls w; applied := a |}.

Definition with_document (d : node) (w : world) : world :=
  {| document := d; heap := heap w; closures := closures w;
     observer := observer w; constructed := constructed w;
     observed := observed w; calls := calls w; applied := applied w |}.

Definition with_map (m : gmap node_id bool) (r : registration) : registration :=
  {| selector := selector r; options := options r; target := target r;
     elementInvocationMap := m; operations := operations r |}.

Definition with_operations (o : list operation) (r : registration) : registration :=
  {| selector := selector r; options := options r; target := target r;
     elementInvocationMap := elementInvocationMap r; operations := o |}.

(** The closure of registration [r]; every [regid] handed out is in range. *)
Definition empty_registration : registration :=
  {| selector := ""; options := ∅; target := VUndefined;
     elementInvocationMap := ∅; operations := [] |}.

Definition closure (r : regid) (w : world) : registration :=
  default empty_registration (closures w !! r).

Definition update_closure (r : regid) (f : registration -> registration) : M unit :=
  modify (fun w => with_closures (alter f r (closures w)) w).

(** All nodes of a subtree in document order, the root first. *)
Fixpoint subtree_nodes (n : node) : list node :=
  n :: match n with
       | DocumentNode _ ks | ElementNode _ _ _ ks =>
           (fix over (l : list node) : list node :=
              match l with
              | [] => []
              | k :: rest => subtree_nodes k ++ over rest
              end) ks
       | TextNode _ _ | CommentNode _ _ => []
       end.

Definition descendants (root : node) : list node := tail (subtree_nodes root).

(** Reading a property of an object: [undefined] when it is absent. *)
Definition property (obj : gmap string jsval) (key : string) : jsval :=
  default VUndefined (obj !! key).

(** [Object.assign(target, source)]: the properties of [source] are
    written over those of [target]. *)
Definition Object_assign (target source : gmap string jsval) : gmap string jsval :=
  source ∪ target.

(** [elementInvocationMap.get(node)], as a condition. *)
Definition map_get (m : gmap node_id bool) (n : node) : bool :=
  default false (m !! ident n).

Fixpoint assoc {A} (key : string) (table : list (string * A)) : option A :=
  match table with
  | [] => None
  | (k, v) :: rest => if String.eqb k key then Some v else assoc key rest
  end.

Section Code.
Context `{Platform}.

(** ** Calling a function of the caller *)

Definition is_callable (v : jsval) : bool :=
  match v with VFun _ => true | _ => false end.

Definition call (f : jsval) (args : list jsval) : M jsval :=
  match f with
  | VFun id =>
      modify (fun w => with_calls (calls w ++ [(id, args)]) w) ;;
      lift (fn_body (fn id) args)
  | _ => throw TypeError
  end.

(** ** The four array methods, on an array [this]

    The callback is the first argument ([undefined] when there is none);
    it receives the item, its index and the array. *)

Definition first_arg (args : list jsval) : jsval := nth 0 args VUndefined.

Fixpoint forEach_from (cb : jsval) (this : list jsval) (k : nat)
    (items : list jsval) : M unit :=
  match items with
  | [] => ret tt
  | x :: rest =>
      call cb [x; VNum (Z.of_nat k); VArr this] ;;
      forEach_from cb this (S k) rest
  end.

Fixpoint map_from (cb : jsval) (this : list jsval) (k : nat)
    (items : list jsval) : M (list jsval) :=
  match items with
  | [] => ret []
  | x :: rest =>
      let* y := call cb [x; VNum (Z.of_nat k); VArr this] in
      let* ys := map_from cb this (S k) rest in
      ret (y :: ys)
  end.

Fixpoint filter_from (cb : jsval) (this : list jsval) (k : nat)
    (items : list jsval) : M (list jsval) :=
  match items with
  | [] => ret []
  | x :: rest =>
      let* keep := call cb [x; VNum (Z.of_nat k); VArr this] in
      let* ys := filter_from cb this (S k) rest in
      ret (if to_boolean keep then x :: ys else ys)
  end.

Definition Array_forEach (this : list jsval) (args : list jsval) : M jsval :=
  let cb := first_arg args in
  if is_callable cb then forEach_from cb this 0 this ;; ret VUndefined
  else throw TypeError.

Definition Array_map (this : list jsval) (args : list jsval) : M jsval :=
  let cb := first_arg args in
  if is_callable cb then
    let* ys := map_from cb this 0 this in ret (VArr ys)
  else throw TypeError.

Definition Array_filter (this : list jsval) (args : list jsval) : M jsval :=
  let cb := first_arg args in
  if is_callable cb then
    let* ys := filter_from cb this 0 this in ret (VArr ys)
  else throw TypeError.

(** [sort] accepts a function or [undefined] as comparator; with fewer
    than two items there is nothing to compare and the array is returned
    as it is. *)
Definition Array_sort (this : list jsval) (args : list jsval) : M jsval :=
  let comparefn := first_arg args in
  match comparefn with
  | VUndefined | VFun _ =>
      match this with
      | [] | [_] => ret (VArr this)
      | _ =>
          let '(made, outcome) := engine_sort comparefn this in
          modify (fun w => with_calls (calls w ++ made) w) ;;
          let* sorted := lift outcome in
          ret (VArr sorted)
      end
  | _ => throw TypeError
  end.

(** [Array.prototype[name]]. *)
Definition Array_prototype (n : opname) : list jsval -> list jsval -> M jsval :=
  match n with
  | ForEach => Array_forEach
  | Map => Array_map
  | Filter => Array_filter
  | Sort => Array_sort
  end.

(** The argument list that [Function.prototype.apply] builds from its
    second argument: none for [undefined] and [null], a [TypeError] for
    another primitive, the items of an array, and for any other object
    the properties [0] to [length - 1].  For a function object [length]
    is its number of declared parameters and the properties read are its
    own integer-indexed ones; a text or comment node has the length of
    its data and no indexed property; the other nodes of the model and
    the handle have no [length]. *)
Definition CreateListFromArrayLike (argArray : jsval) : completion (list jsval) :=
  match argArray with
  | VUndefined | VNull => Normal []
  | VBool _ | VNum _ | VStr _ => Throw TypeError
  | VArr items => Normal items
  | VFun f => Normal (map (fn_indexed (fn f)) (seq 0 (fn_length (fn f))))
  | VNode (TextNode _ data) | VNode (CommentNode _ data) =>
      Normal (repeat VUndefined (String.length data))
  | VNode _ | VHandle _ => Normal []
  end.

(** [method.apply(thisArg, argArray)] for an array method: the argument
    list is built first, then the method converts [thisArg] to an
    object, which throws for [undefined].  The accumulator of the
    pipeline is the array it starts from or what one of the four methods
    returned, an array or [undefined] ([method_returns_array_or_undefined]
    below), so no other value arrives here. *)
Definition apply_method (method : list jsval -> list jsval -> M jsval)
    (thisArg : jsval) (argArray : jsval) : M jsval :=
  let* args := lift (CreateListFromArrayLike argArray) in
  match thisArg with
  | VArr this => method this args
  | _ => throw TypeError
  end.

(** [operations.reduce(step, init)]. *)
Fixpoint reduce (ops : list operation) (step : jsval -> operation -> M jsval)
    (prev : jsval) : M jsval :=
  match ops with
  | [] => ret prev
  | op :: rest => let* next := step prev op in reduce rest step next
  end.

(** [applyOperations(element)] in the closure of registration [r]. *)
Definition applyOperations (r : regid) (element : node) : M unit :=
  modify (fun w => with_applied (applied w ++ [(r, element)]) w) ;;
  let elementArray := VArr [VNode element] in
  let* ops := gets (fun w => operations (closure r w)) in
  reduce ops
    (fun prev operation =>
       apply_method (Array_prototype (name operation)) prev (func operation))
    elementArray ;;
  ret tt.

(** ** DOM queries *)

(** [root.querySelectorAll(selector)]: the matching elements below
    [root], in document order. *)
Definition querySelectorAll (root : node) (sel : string) : list node :=
  List.filter (fun n => (nodeType n =? ELEMENT_NODE)%Z && node_matches sel n)
    (descendants root).

(** [root.querySelector(selector)]: the first of them, or [null]. *)
Definition querySelector (root : node) (sel : string) : jsval :=
  match querySelectorAll root sel with
  | n :: _ => VNode n
  | [] => VNull
  end.

(** [observer.observe(target, init)]; [target] has to be a node. *)
Definition observe (tgt : jsval) (init : MutationObserverInit) : M unit :=
  match tgt with
  | VNode n => modify (fun w => with_observed (observed w ++ [(n, init)]) w)
  | _ => throw TypeError
  end.

(** ** The callback given to [new MutationObserver], in the closure of
    registration [r] *)
Definition observer_callback (r : regid) (mutations : list MutationRecord) : M unit :=
  for_each mutations (fun mutation =>
    for_each (addedNodes mutation) (fun node =>
      let* c := gets (closure r) in
      if (nodeType node =? ELEMENT_NODE)%Z && node_matches (selector c) node then
        if negb (to_boolean (property (options c) "matchReappearance"))
           && map_get (elementInvocationMap c) node
        then ret tt
        else
          update_closure r (fun c =>
            with_map (<[ident node := true]> (elementInvocationMap c)) c) ;;
          applyOperations r node
      else ret tt)).

(** ** [querySelectorPerpetual(selector, options)] *)

(** Lines 74-121: the observer is created and subscribed only when the
    function property [querySelectorPerpetual.observer] is not set; the
    property is assigned before [observe] is called. *)
Definition ensure_observer (r : regid) (tgt : jsval) : M unit :=
  let* existing := gets observer in
  match existing with
  | None =>
      modify (fun w => with_constructed (S (constructed w))
                         (with_observer (Some r) w)) ;;
      observe tgt {| childList := true; subtree := true |}
  | Some _ => ret tt
  end.

(** Lines 132-150: the elements that match now are taken from
    [document.querySelectorAll(selector)]. *)
Definition match_existing (r : regid) (sel : string) : M unit :=
  let* found := gets (fun w => querySelectorAll (document w) sel) in
  for_each found (fun element =>
    let* c := gets (closure r) in
    if negb (to_boolean (property (options c) "matchReappearance"))
       && map_get (elementInvocationMap c) element
    then ret tt
    else
      update_closure r (fun c =>
        with_map (<[ident element := true]> (elementInvocationMap c)) c) ;;
      applyOperations r element).

(** The options after [Object.assign(defaultOptions, options || {})];
    [given] holds the properties of the caller's object, which are data
    properties (a getter would be run here). *)
Definition resolve_options (body : jsval) (given : gmap string jsval)
    : gmap string jsval :=
  let defaultOptions : gmap string jsval :=
    {[ "matchExisting" := VBool true;
       "matchReappearance" := VBool false;
       "rootElement" := body ]} in
  Object_assign defaultOptions given.

(** [opts] is the caller's options object ([None] when the argument is
    left out).  Each call has its own closure: a new map and a new,
    empty array of operations. *)
Definition querySelectorPerpetual (sel : string) (opts : option loc) : M jsval :=
  let* body := gets (fun w => querySelector (document w) "body") in
  let* given := gets (fun w =>
    match opts with
    | Some l => default ∅ (heap w !! l)
    | None => ∅
    end) in
  let options := resolve_options body given in
  let tgt := property options "rootElement" in
  let* r := gets (fun w => length (closures w)) in
  modify (fun w => with_closures
    (closures w ++ [{| selector := sel; options := options; target := tgt;
                       elementInvocationMap := ∅; operations := [] |}]) w) ;;
  ensure_observer r tgt ;;
  (if to_boolean (property options "matchExisting")
   then match_existing r sel
   else ret tt) ;;
  ret (VHandle r).

(** ** The returned handle *)

Definition addOperation (r : regid) (n : opname) (f : jsval) : M unit :=
  update_closure r (fun c =>
    with_operations (operations c ++ [{| name := n; func := f |}]) c).

Definition handle_forEach (this : regid) (f : jsval) : M jsval :=
  addOperation this ForEach f ;; ret (VHandle this).

Definition handle_map (this : regid) (f : jsval) : M jsval :=
  addOperation this Map f ;; ret (VHandle this).

Definition handle_filter (this : regid) (f : jsval) : M jsval :=
  addOperation this Filter f ;; ret (VHandle this).

Definition handle_sort (this : regid) (f : jsval) : M jsval :=
  addOperation this Sort f ;; ret (VHandle this).

(** The properties of the object literal that is returned. *)
Definition handle : list (string * (regid -> jsval -> M jsval)) :=
  [ ("forEach", handle_forEach); ("map", handle_map);
    ("filter", handle_filter); ("sort", handle_sort) ].

(** [h.method(f)] for a name that is an own property of the handle or no
    property at all: calling a property that is not there is a
    [TypeError].  (Names inherited from [Object.prototype] are outside
    the model.) *)
Definition call_method (h : regid) (method : string) (f : jsval) : M jsval :=
  match assoc method handle with
  | Some m => m h f
  | None => throw TypeError
  end.

(** ** [Document.prototype.querySelectorPerpetual] and
    [Element.prototype.querySelectorPerpetual]

    Both have the same body; [this] is the document or the element.
    The options object is extensible, so that the write of [rootElement]
    succeeds. *)
Definition prototype_querySelectorPerpetual (this : node) (sel : string)
    (opts : option loc) : M jsval :=
  let extra : gmap string jsval := {[ "rootElement" := VNode this ]} in
  let* o :=
    match opts with
    | Some l =>
        modify (fun w => with_heap
          (alter (fun obj => Object_assign obj extra) l (heap w)) w) ;;
        ret l
    | None =>
        let* l := gets (fun w => length (heap w)) in
        modify (fun w => with_heap (heap w ++ [Object_assign ∅ extra]) w) ;;
        ret l
    end in
  querySelectorPerpetual sel (Some o).

(** ** What can happen on a page *)

Inductive event : Type :=
| Register (sel : string) (opts : option loc)
| RegisterOn (this : node) (sel : string) (opts : option loc)
| Chain (h : regid) (method : string) (f : jsval)
| Deliver (mutations : list MutationRecord)
| Edit (d : node)
| NewObject (obj : gmap string jsval)
| SetProperty (l : loc) (key : string) (v : jsval).

(** The platform calls the callback of the observer with the batches of
    the subscriptions it has. *)
Definition deliver (mutations : list MutationRecord) : M jsval :=
  let* o := gets observer in
  let* subs := gets observed in
  match o, subs with
  | Some r, _ :: _ => observer_callback r mutations ;; ret VUndefined
  | _, _ => ret VUndefined
  end.

Definition step (e : event) : M jsval :=
  match e with
  | Register sel opts => querySelectorPerpetual sel opts
  | RegisterOn this sel opts => prototype_querySelectorPerpetual this sel opts
  | Chain h method f => call_method h method f
  | Deliver mutations => deliver mutations
  | Edit d => modify (with_document d) ;; ret VUndefined
  | NewObject obj =>
      modify (fun w => with_heap (heap w ++ [obj]) w) ;; ret VUndefined
  | SetProperty l key v =>
      modify (fun w => with_heap (alter (insert key v) l (heap w)) w) ;;
      ret VUndefined
  end.

(** Each event is a task of its own: what it throws is reported and the
    page goes on. *)
Fixpoint run (events : list event) (w : world) : world :=
  match events with
  | [] => w
  | e :: rest => run rest (snd (step e w))
  end.

End Code.

(** The page before any script has run. *)
Definition initial (d : node) : world :=
  {| document := d; heap := []; closures := []; observer := None;
     constructed := 0; observed := []; calls := []; applied := [] |}.

(** ** The specification's wording, for comparison with the code *)

Section Wording.
Context `{Platform}.

(** "Process element": skip an element that is already in the seen-set
    unless [matchReappearance] is set; otherwise mark it and run the
    pipeline on it. *)
Definition process_element (r : regid) (element : node) : M unit :=
  let* c := gets (closure r) in
  if negb (to_boolean (property (options c) "matchReappearance"))
     && map_get (elementInvocationMap c) element
  then ret tt
  else
    update_closure r (fun c =>
      with_map (<[ident element := true]> (elementInvocationMap c)) c) ;;
    applyOperations r element.

(** The pipeline as the specification describes it: the array flows
    through the methods with the caller's function as the callback. *)
Definition spec_applyOperations (r : regid) (element : node) : M unit :=
  modify (fun w => with_applied (applied w ++ [(r, element)]) w) ;;
  let* ops := gets (fun w => operations (closure r w)) in
  reduce ops
    (fun prev operation =>
       match prev with
       | VArr this => Array_prototype (name operation) this [func operation]
       | _ => throw TypeError
       end)
    (VArr [VNode element]) ;;
  ret tt.

(** The scope root the specification names: the [rootElement] of the
    caller's options when there is one, the body otherwise. *)
Definition spec_scope_root (w : world) (opts : option loc) : jsval :=
  let supplied : option jsval :=
    match opts with
    | Some l =>
        match heap w !! l with
        | Some obj => obj !! "rootElement"
        | None => None
        end
    | None => None
    end in
  match supplied with
  | Some v => v
  | None => querySelector (document w) "body"
  end.

(** The scan the specification describes: the matches below the scope
    root. *)
Definition spec_scan (root : jsval) (sel : string) : list node :=
  match root with
  | VNode n => querySelectorAll n sel
  | _ => []
  end.

(** A function as a function expression or declaration makes it: it
    has no integer-indexed property of its own. *)
Definition plain_function (f : funid) : Prop :=
  forall i, fn_indexed (fn f) i = VUndefined.

(** An added node qualifies when it is an element that matches. *)
Definition qualifies (sel : string) (n : node) : bool :=
  (nodeType n =? ELEMENT_NODE)%Z && node_matches sel n.

End Wording.

(** The added nodes of a batch, over all its records, in order. *)
Definition added_nodes (mutations : list MutationRecord) : list node :=
  concat (map addedNodes mutations).


(** ** A page to run the code on

    The page of the test suite: a container with two items, and further
    nodes used by the examples below. *)
Module Page.

Definition item1 : node := ElementNode 3 "div" ["item"] [TextNode 13 "Item 1"].
Definition item2 : node := ElementNode 4 "div" ["item"] [TextNode 14 "Item 2"].
Definition item3 : node := ElementNode 5 "div" ["item"] [TextNode 15 "Item 3"].
Definition item4 : node := ElementNode 6 "div" ["item"] [TextNode 16 "Item 4"].
Definition container : node := ElementNode 2 "div" [] [item1; item2].
Definition body : node := ElementNode 1 "body" [] [container].
Definition page : node := DocumentNode 0 [ElementNode 10 "html" [] [body]].

(** A second page: an item inside the container and one outside it. *)
Definition inside : node := ElementNode 3 "div" ["item"] [TextNode 13 "in"].
Definition outside : node := ElementNode 4 "div" ["item"] [TextNode 14 "out"].
Definition box : node := ElementNode 2 "div" [] [inside].
Definition page2 : node :=
  DocumentNode 0 [ElementNode 10 "html" [] [ElementNode 1 "body" [] [box; outside]]].

(** [element.textContent]. *)
Fixpoint textContent (n : node) : string :=
  match n with
  | TextNode _ s => s
  | CommentNode _ _ => ""
  | DocumentNode _ ks | ElementNode _ _ _ ks =>
      (fix over (l : list node) : string :=
         match l with
         | [] => ""
         | k :: rest => String.append (textContent k) (over rest)
         end) ks
  end.

(** Selectors of the forms [tag] and [.class]. *)
Definition simple_matches (sel : string) (n : node) : bool :=
  match n with
  | ElementNode _ tag classes _ =>
      String.eqb sel tag || existsb (fun c => String.eqb sel (String.append "." c)) classes
  | _ => false
  end.

(** The caller's functions: [textOf] is
    [function (element) { return element.textContent; }], [spy] records
    its calls and returns nothing, [isItem1] is the predicate of the
    filter test, [fails] throws. *)
Definition textOf : funid := 0.
Definition spy : funid := 1.
Definition fails : funid := 3.

Definition functions (f : funid) : jsfun :=
  match f with
  | 0 => {| fn_length := 1;
            fn_indexed := fun _ => VUndefined;
            fn_body := fun args =>
              match args with
              | VNode n :: _ => Normal (VStr (textContent n))
              | _ => Throw TypeError
              end |}
  | 2 => {| fn_length := 1;
            fn_indexed := fun _ => VUndefined;
            fn_body := fun args =>
              match args with
              | VNode n :: _ => Normal (VBool (String.eqb (textContent n) "Item 1"))
              | _ => Throw TypeError
              end |}
  | 3 => {| fn_length := 0;
            fn_indexed := fun _ => VUndefined;
            fn_body := fun _ => Throw (Thrown (VStr "no")) |}
  | _ => {| fn_length := 0;
            fn_indexed := fun _ => VUndefined;
            fn_body := fun _ => Normal VUndefined |}
  end.

Definition browser : Platform :=
  {| fn := functions;
     node_matches := simple_matches;
     engine_sort := fun _ items => ([], Normal items) |}.

Definition added (n : node) : MutationRecord :=
  {| addedNodes := [n]; removedNodes := [] |}.

(** The page after [querySelectorPerpetual(".item").forEach(spy)]. *)
Definition watching : world :=
  @run browser [Register ".item" None; Chain 0 "forEach" (VFun spy)] (initial page).

(** The page after [querySelectorPerpetual(".item")]: both items are
    marked. *)
Definition scanned : world :=
  @run browser [Register ".item" None] (initial page).

(** The page after
    [querySelectorPerpetual(".item", { matchReappearance: true })]. *)
Definition reappearing : world :=
  @run browser [NewObject {[ "matchReappearance" := VBool true ]};
       Register ".item" (Some 0)] (initial page).

(** A page whose document has no body yet. *)
Definition early_page : node :=
  DocumentNode 0 [ElementNode 10 "html" [] [ElementNode 11 "head" [] []]].

(** The page after [querySelectorPerpetual(".item")] and then
    [querySelectorPerpetual("div")]. *)
Definition twice : world :=
  @run browser [Register ".item" None; Register "div" None] (initial page).

(** The page on which the caller has made the object
    [{ matchExisting: false }]. *)
Definition with_options_object : world :=
  @run browser [NewObject {[ "matchExisting" := VBool false ]}] (initial page).

(** The page on which the caller has made the object
    [{ rootElement: body }]. *)
Definition with_root_object : world :=
  @run browser [NewObject {[ "rootElement" := VNode body ]}] (initial page).

(** An element that does not match [.item] itself but contains one that
    does. *)
Definition wrapper : node := ElementNode 21 "section" [] [item3].

(** The page after
    [querySelectorPerpetual(".item", { matchReappearance: true }).forEach(spy)]. *)
Definition reappearing_watching : world :=
  @run browser [NewObject {[ "matchReappearance" := VBool true ]};
       Register ".item" (Some 0); Chain 0 "forEach" (VFun spy)] (initial page).

(** The page after two calls with [{ matchReappearance: true }], for
    [.item] and then for [section]. *)
Definition reappearing_twice : world :=
  @run browser [NewObject {[ "matchReappearance" := VBool true ]};
       Register ".item" (Some 0); Register "section" (Some 0)] (initial page).

(** [item1] put back into the document inside a new element. *)
Definition rewrapped : node := ElementNode 22 "section" [] [item1].

(** A function object that has been given a property [0] holding
    [textOf], and the caller's functions with it. *)
Definition indexed : funid := 4.

Definition functions_with_indexed (f : funid) : jsfun :=
  match f with
  | 4 => {| fn_length := 1;
            fn_indexed := fun i => match i with 0 => VFun textOf | _ => VUndefined end;
            fn_body := fun _ => Normal VUndefined |}
  | _ => functions f
  end.

Definition browser_with_indexed : Platform :=
  {| fn := functions_with_indexed;
     node_matches := simple_matches;
     engine_sort := fun _ items => ([], Normal items) |}.

End Page.

(** * Properties *)

(** ** Reasoning about state-passing code *)

(** [preserves R m]: running [m] relates the state before to the state
    after, whether [m] returns or throws. *)
Definition preserves {A} (R : world -> world -> Prop) (m : M A) : Prop :=
  forall w, R w (snd (m w)).

(** Only the trace of calls of the caller's functions changes. *)
Definition only_calls (w w' : world) : Prop :=
  document w' = document w /\ heap w' = heap w /\ closures w' = closures w /\
  observer w' = observer w /\ constructed w' = constructed w /\
  observed w' = observed w /\ applied w' = applied w.

(** How one closure may change when an element is processed: its map
    gains marks, nothing else moves. *)
Definition gains_marks (c c' : registration) : Prop :=
  selector c' = selector c /\ options c' = options c /\ target c' = target c /\
  operations c' = operations c /\
  forall k, elementInvocationMap c !! k = Some true ->
            elementInvocationMap c' !! k = Some true.

(** Only the map of closure [r] and the traces change. *)
Definition marks_only (r : regid) (w w' : world) : Prop :=
  document w' = document w /\ heap w' = heap w /\
  observer w' = observer w /\ constructed w' = constructed w /\
  observed w' = observed w /\
  length (closures w') = length (closures w) /\
  (forall r', r' <> r -> closures w' !! r' = closures w !! r') /\
  (forall c, closures w !! r = Some c ->
     exists c', closures w' !! r = Some c' /\ gains_marks c c').

(** Once the observer exists, it and its subscriptions stay as they are. *)
Definition keeps_observer (w w' : world) : Prop :=
  observer w <> None ->
  observer w' = observer w /\ constructed w' = constructed w /\
  observed w' = observed w.

(** The caller's objects are left alone. *)
Definition keeps_heap (w w' : world) : Prop := heap w' = heap w.

(** Closures and the trace of processed elements are left alone. *)
Definition same_books (w w' : world) : Prop :=
  closures w' = closures w /\ applied w' = applied w.

(** Only the observer, its count and its subscriptions change. *)
Definition only_observer (w w' : world) : Prop :=
  document w' = document w /\ heap w' = heap w /\ closures w' = closures w /\
  calls w' = calls w /\ applied w' = applied w.

(** The mark that processing sets. *)
Definition mark (n : node) (c : registration) : registration :=
  with_map (<[ident n := true]> (elementInvocationMap c)) c.

(** Appending an operation to the pipeline of closure [r]. *)
Definition push_operation (op : operation) (c : registration) : registration :=
  with_operations (operations c ++ [op]) c.

(** Registration [r] has [matchReappearance] off and has marked [k]. *)
Definition locked (r : regid) (k : node_id) (w : world) : Prop :=
  exists c, closures w !! r = Some c /\
            to_boolean (property (options c) "matchReappearance") = false /\
            elementInvocationMap c !! k = Some true.

(** From a state in which [r] has marked [k] on, [k] stays marked and
    [r] runs its pipeline on no node with that identity. *)
Definition never_again (r : regid) (k : node_id) (w w' : world) : Prop :=
  locked r k w ->
  locked r k w' /\
  exists more, applied w' = applied w ++ more /\
               forall n, (r, n) ∈ more -> ident n <> k.

(** The marks of closure [r] that are new are of nodes in [S]; its
    pipeline is as it was. *)
Definition marks_within (S : list node) (r : regid) (w w' : world) : Prop :=
  forall c, closures w !! r = Some c ->
  exists c', closures w' !! r = Some c' /\ operations c' = operations c /\
    forall k, is_Some (elementInvocationMap c' !! k) ->
              is_Some (elementInvocationMap c !! k) \/
              exists n, n ∈ S /\ ident n = k.

Definition is_sort (op : operation) : bool :=
  match name op with Sort => true | _ => false end.

(** Nothing is called, and a pipeline that is empty stays empty. *)
Definition silent (r : regid) (w w' : world) : Prop :=
  operations (closure r w) = [] ->
  operations (closure r w') = [] /\ calls w' = calls w.

(** The closure a call creates, before anything is processed. *)
Definition given_options (opts : option loc) (w : world) : gmap string jsval :=
  match opts with
  | Some l => default ∅ (heap w !! l)
  | None => ∅
  end.

Section Vocabulary.
Context `{Platform}.

Definition new_closure (sel : string) (opts : option loc) (w : world) : registration :=
  let options :=
    resolve_options (querySelector (document w) "body") (given_options opts w) in
  {| selector := sel; options := options;
     target := property options "rootElement";
     elementInvocationMap := ∅; operations := [] |}.

(** What the callback does with one added node. *)
Definition visit (r : regid) (node : node) : M unit :=
  let* c := gets (closure r) in
  if (nodeType node =? ELEMENT_NODE)%Z && node_matches (selector c) node
  then process_element r node
  else ret tt.

End Vocabulary.

(** ** Vocabulary of the further properties *)

(** The nodes registration [r] has run its pipeline on, oldest first. *)
Definition processed_by (r : regid) (trace : list (regid * node)) : list node :=
  map snd (List.filter (fun p => Nat.eqb (fst p) r) trace).

(** The new entries of the trace are all of registration [r]. *)
Definition runs_only (r : regid) (w w' : world) : Prop :=
  exists more, applied w' = applied w ++ more /\
               Forall (fun p => fst p = r) more.

(** The registration that runs its pipeline on an event: a call runs the
    pipeline of the registration it creates, a delivery that of the
    registration the observer belongs to. *)
Definition runner (e : event) (w : world) : option regid :=
  match e with
  | Register _ _ | RegisterOn _ _ _ => Some (length (closures w))
  | Deliver _ => observer w
  | _ => None
  end.

(** How a closure changes over time: selector, options and target stay,
    the pipeline is extended at its end, marks are added. *)
Definition grows (c c' : registration) : Prop :=
  selector c' = selector c /\ options c' = options c /\ target c' = target c /\
  (exists more, operations c' = operations c ++ more) /\
  forall k, elementInvocationMap c !! k = Some true ->
            elementInvocationMap c' !! k = Some true.

Definition history (w w' : world) : Prop :=
  forall r c, closures w !! r = Some c ->
  exists c', closures w' !! r = Some c' /\ grows c c'.

(** The property of the handle that appends operations of kind [k]. *)
Definition method_name (k : opname) : string :=
  match k with
  | ForEach => "forEach"
  | Map => "map"
  | Filter => "filter"
  | Sort => "sort"
  end.

(** [h.m1(f1).m2(f2)...]: a chain written after the call. *)
Definition chained (h : regid) (chain : list (opname * jsval)) : list event :=
  map (fun p => Chain h (method_name (fst p)) (snd p)) chain.


(** The observer belongs to a closure that exists. *)
Definition owner_in_range (w : world) : Prop :=
  forall o, observer w = Some o -> o < length (closures w).

(** With [matchReappearance] off, registration [r] has processed no
    identity twice and has marked what it processed; a registration
    that does not exist yet has processed nothing. *)
Definition tidy (r : regid) (w : world) : Prop :=
  match closures w !! r with
  | Some c =>
      to_boolean (property (options c) "matchReappearance") = false ->
      NoDup (map ident (processed_by r (applied w))) /\
      forall n, n ∈ processed_by r (applied w) ->
                elementInvocationMap c !! ident n = Some true
  | None => processed_by r (applied w) = []
  end.

(** The closures only become more. *)
Definition more_closures (w w' : world) : Prop :=
  length (closures w) <= length (closures w').

Section Preservation.
Context {R : world -> world -> Prop} `{!PreOrder R}.

Lemma preserves_ret {A} (a : A) : preserves R (ret a).
Proof. intros w. reflexivity. Qed.

Lemma preserves_throw {A} (e : error) : preserves R (@throw A e).
Proof. intros w. reflexivity. Qed.

Lemma preserves_gets {A} (f : world -> A) : preserves R (gets f).
Proof. intros w. reflexivity. Qed.

Lemma preserves_lift {A} (c : completion A) : preserves R (lift c).
Proof. intros w. reflexivity. Qed.

Lemma preserves_modify (f : world -> world) :
  (forall w, R w (f w)) -> preserves R (modify f).
Proof. intros Hf w. apply Hf. Qed.

Lemma preserves_bind {A B} (m : M A) (k : A -> M B) :
  preserves R m -> (forall a, preserves R (k a)) -> preserves R (bind m k).
Proof.
  intros Hm Hk w. unfold bind. specialize (Hm w).
  destruct (m w) as [[a | e] w1]; simpl in *.
  - transitivity w1; [exact Hm | apply Hk].
  - exact Hm.
Qed.

Lemma preserves_for_each {A} (items : list A) (body : A -> M unit) :
  (forall x, preserves R (body x)) -> preserves R (for_each items body).
Proof.
  intros Hbody. induction items as [| x rest IH]; simpl.
  - apply preserves_ret.
  - apply preserves_bind; [apply Hbody | intros _; exact IH].
Qed.

End Preservation.

Lemma bind_apply {A B} (m : M A) (k : A -> M B) w :
  bind m k w =
  match m w with
  | (Normal a, w') => k a w'
  | (Throw e, w') => (Throw e, w')
  end.
Proof. reflexivity. Qed.

Lemma for_each_ext {A} (items : list A) (f g : A -> M unit) :
  (forall x w, f x w = g x w) ->
  forall w, for_each items f w = for_each items g w.
Proof.
  intros Hfg. induction items as [| x rest IH]; intros w; simpl.
  - reflexivity.
  - unfold bind. rewrite Hfg. destruct (g x w) as [[[] | e] w1]; auto.
Qed.

Lemma for_each_app {A} (l1 l2 : list A) (f : A -> M unit) w :
  for_each (l1 ++ l2) f w = (for_each l1 f ;; for_each l2 f) w.
Proof.
  revert w. induction l1 as [| x rest IH]; intros w; simpl.
  - reflexivity.
  - unfold bind in *. destruct (f x w) as [[[] | e] w1]; [| reflexivity].
    apply IH.
Qed.

#[local] Instance only_calls_preorder : PreOrder only_calls.
Proof.
  split.
  - intros w. unfold only_calls. tauto.
  - intros a b c (?&?&?&?&?&?&?) (?&?&?&?&?&?&?). unfold only_calls.
    repeat split; congruence.
Qed.

#[local] Instance gains_marks_preorder : PreOrder gains_marks.
Proof.
  split.
  - intros c. unfold gains_marks. tauto.
  - intros a b c (?&?&?&?&Hab) (?&?&?&?&Hbc). unfold gains_marks.
    repeat split; try congruence. intros k Hk. apply Hbc, Hab, Hk.
Qed.

#[local] Instance marks_only_preorder r : PreOrder (marks_only r).
Proof.
  split.
  - intros w. unfold marks_only. repeat split; try reflexivity.
    intros c Hc. exists c. split; [exact Hc | reflexivity].
  - intros a b c (?&?&?&?&?&?&Hne1&Hr1) (?&?&?&?&?&?&Hne2&Hr2).
    unfold marks_only. repeat split; try congruence.
    + intros r' Hr'. rewrite Hne2, Hne1; auto.
    + intros ca Hca. destruct (Hr1 ca Hca) as (cb & Hcb & Hab).
      destruct (Hr2 cb Hcb) as (cc & Hcc & Hbc).
      exists cc. split; [exact Hcc | etransitivity; eassumption].
Qed.

#[local] Instance keeps_observer_preorder : PreOrder keeps_observer.
Proof.
  split.
  - intros w _. tauto.
  - intros a b c Hab Hbc Ha. destruct (Hab Ha) as (Ho & Hc & Hs).
    assert (observer b <> None) as Hb by congruence.
    destruct (Hbc Hb) as (Ho' & Hc' & Hs'). repeat split; congruence.
Qed.

#[local] Instance keeps_heap_preorder : PreOrder keeps_heap.
Proof. split; unfold keeps_heap; congruence. Qed.

Lemma marks_only_keeps_observer r w w' : marks_only r w w' -> keeps_observer w w'.
Proof. intros (?&?&?&?&?&_) _. tauto. Qed.

Lemma marks_only_keeps_heap r w w' : marks_only r w w' -> keeps_heap w w'.
Proof. intros (?&?&_). assumption. Qed.

Section CodeFacts.
Context `{Platform}.

(** ** The pipeline touches nothing but the traces *)

Lemma call_only_calls f args : preserves only_calls (call f args).
Proof.
  destruct f; try apply preserves_throw. simpl.
  apply preserves_bind; [| intros _; apply preserves_lift].
  apply preserves_modify. intros w. unfold only_calls. simpl. tauto.
Qed.

Lemma forEach_from_only_calls cb this items k :
  preserves only_calls (forEach_from cb this k items).
Proof.
  revert k. induction items as [| x rest IH]; intros k; simpl.
  - apply preserves_ret.
  - apply preserves_bind; [apply call_only_calls | intros _; apply IH].
Qed.

Lemma map_from_only_calls cb this items k :
  preserves only_calls (map_from cb this k items).
Proof.
  revert k. induction items as [| x rest IH]; intros k; simpl.
  - apply preserves_ret.
  - apply preserves_bind; [apply call_only_calls | intros y].
    apply preserves_bind; [apply IH | intros ys; apply preserves_ret].
Qed.

Lemma filter_from_only_calls cb this items k :
  preserves only_calls (filter_from cb this k items).
Proof.
  revert k. induction items as [| x rest IH]; intros k; simpl.
  - apply preserves_ret.
  - apply preserves_bind; [apply call_only_calls | intros y].
    apply preserves_bind; [apply IH | intros ys; apply preserves_ret].
Qed.

Lemma Array_prototype_only_calls n this args :
  preserves only_calls (Array_prototype n this args).
Proof.
  destruct n; simpl.
  - unfold Array_forEach. destruct (is_callable _); [| apply preserves_throw].
    apply preserves_bind; [apply forEach_from_only_calls | intros _; apply preserves_ret].
  - unfold Array_map. destruct (is_callable _); [| apply preserves_throw].
    apply preserves_bind; [apply map_from_only_calls | intros; apply preserves_ret].
  - unfold Array_filter. destruct (is_callable _); [| apply preserves_throw].
    apply preserves_bind; [apply filter_from_only_calls | intros; apply preserves_ret].
  - unfold Array_sort.
    destruct (first_arg args); try apply preserves_throw;
      (destruct this as [| x [| y rest]]; try apply preserves_ret;
       destruct (engine_sort _ _) as [made outcome];
       apply preserves_bind;
       [ apply preserves_modify; intros w; unfold only_calls; simpl; tauto
       | intros _; apply preserves_bind;
         [apply preserves_lift | intros; apply preserves_ret] ]).
Qed.

Lemma method_returns_array_or_undefined n this args w v w' :
  Array_prototype n this args w = (Normal v, w') ->
  v = VUndefined \/ exists items, v = VArr items.
Proof.
  destruct n; simpl.
  - unfold Array_forEach. destruct (is_callable _); [| discriminate].
    unfold bind. destruct (forEach_from _ _ _ _ w) as [[[] | e] w1];
      [| discriminate].
    intros E. inversion E. auto.
  - unfold Array_map. destruct (is_callable _); [| discriminate].
    unfold bind. destruct (map_from _ _ _ _ w) as [[ys | e] w1];
      [| discriminate].
    intros E. inversion E. eauto.
  - unfold Array_filter. destruct (is_callable _); [| discriminate].
    unfold bind. destruct (filter_from _ _ _ _ w) as [[ys | e] w1];
      [| discriminate].
    intros E. inversion E. eauto.
  - unfold Array_sort.
    destruct (first_arg args); try discriminate;
      (destruct this as [| x [| y rest]];
       [ intros E; inversion E; eauto
       | intros E; inversion E; eauto
       | destruct (engine_sort _ _) as [made [sorted | e]];
         intros E; inversion E; eauto ]).
Qed.

Lemma apply_method_only_calls n thisArg argArray :
  preserves only_calls (apply_method (Array_prototype n) thisArg argArray).
Proof.
  unfold apply_method. apply preserves_bind; [apply preserves_lift | intros args].
  destruct thisArg; try apply preserves_throw. apply Array_prototype_only_calls.
Qed.

Lemma reduce_only_calls ops step prev :
  (forall p op, preserves only_calls (step p op)) ->
  preserves only_calls (reduce ops step prev).
Proof.
  intros Hstep. revert prev. induction ops as [| op rest IH]; intros prev; simpl.
  - apply preserves_ret.
  - apply preserves_bind; [apply Hstep | intros next; apply IH].
Qed.

(** What [applyOperations] does to the state: one more entry in the
    trace of processed elements, and whatever calls the pipeline made. *)
Lemma applyOperations_state r element w :
  let w' := snd (applyOperations r element w) in
  document w' = document w /\ heap w' = heap w /\ closures w' = closures w /\
  observer w' = observer w /\ constructed w' = constructed w /\
  observed w' = observed w /\ applied w' = applied w ++ [(r, element)].
Proof.
  unfold applyOperations, bind at 1, modify at 1. simpl.
  set (w1 := with_applied _ w).
  assert (preserves only_calls
    (let* ops := gets (fun w0 => operations (closure r w0)) in
     reduce ops (fun prev operation =>
       apply_method (Array_prototype (name operation)) prev (func operation))
       (VArr [VNode element]) ;; ret tt)) as Hrest.
  { apply preserves_bind; [apply preserves_gets | intros ops].
    apply preserves_bind; [| intros; apply preserves_ret].
    apply reduce_only_calls. intros p op. apply apply_method_only_calls. }
  destruct (Hrest w1) as (?&?&?&?&?&?&?). subst w1. simpl in *.
  repeat split; assumption.
Qed.

Lemma applyOperations_marks_only r r' element :
  preserves (marks_only r') (applyOperations r element).
Proof.
  intros w. destruct (applyOperations_state r element w) as (?&?&Hc&?&?&?&?).
  repeat split; try congruence.
  intros c Hc'. exists c. rewrite Hc. split; [exact Hc' | reflexivity].
Qed.

End CodeFacts.

(** ** Elements, closures and the observer *)

#[local] Instance same_books_preorder : PreOrder same_books.
Proof.
  split.
  - intros w. split; reflexivity.
  - intros a b c [? ?] [? ?]. split; congruence.
Qed.

#[local] Instance never_again_preorder r k : PreOrder (never_again r k).
Proof.
  split.
  - intros w Hl. split; [exact Hl |]. exists []. rewrite app_nil_r.
    split; [reflexivity |]. intros n Hn. inversion Hn.
  - intros a b c Hab Hbc Ha. destruct (Hab Ha) as (Hb & m1 & E1 & N1).
    destruct (Hbc Hb) as (Hc & m2 & E2 & N2). split; [exact Hc |].
    exists (m1 ++ m2). rewrite E2, E1, app_assoc. split; [reflexivity |].
    intros n Hn. apply elem_of_app in Hn as [Hn | Hn]; auto.
Qed.

Lemma same_books_never_again r k w w' : same_books w w' -> never_again r k w w'.
Proof.
  intros [Hc Ha] (c & Hl & Hm & Hk). split.
  - exists c. rewrite Hc. auto.
  - exists []. rewrite app_nil_r. split; [exact Ha |]. intros n Hn. inversion Hn.
Qed.

Lemma closure_lookup r w c : closures w !! r = Some c -> closure r w = c.
Proof. intros Hc. unfold closure. rewrite Hc. reflexivity. Qed.

Lemma mark_gains n c : gains_marks c (mark n c).
Proof.
  unfold gains_marks, mark. simpl. repeat split; try reflexivity.
  intros k Hk. destruct (decide (ident n = k)) as [-> | Hne].
  - apply lookup_insert_eq.
  - rewrite lookup_insert_ne; assumption.
Qed.

Section ElementFacts.
Context `{Platform}.

Lemma process_element_unfold r element w :
  process_element r element w =
  if negb (to_boolean (property (options (closure r w)) "matchReappearance"))
     && map_get (elementInvocationMap (closure r w)) element
  then (Normal tt, w)
  else applyOperations r element
         (with_closures (alter (mark element) r (closures w)) w).
Proof.
  unfold process_element, bind at 1, gets at 1.
  destruct (negb _ && _); reflexivity.
Qed.

Lemma marked_world_marks_only r element w :
  marks_only r w (with_closures (alter (mark element) r (closures w)) w).
Proof.
  unfold marks_only. simpl. repeat split; try reflexivity.
  - apply length_alter.
  - intros r' Hne. apply list_lookup_alter_ne. congruence.
  - intros c Hc. exists (mark element c). split; [| apply mark_gains].
    rewrite list_lookup_alter_eq, Hc. reflexivity.
Qed.

Lemma process_element_marks_only r element :
  preserves (marks_only r) (process_element r element).
Proof.
  intros w. rewrite process_element_unfold. destruct (negb _ && _).
  - reflexivity.
  - etransitivity; [apply marked_world_marks_only |].
    apply applyOperations_marks_only.
Qed.

Lemma process_element_never_again r k r' element :
  preserves (never_again r k) (process_element r' element).
Proof.
  intros w Hl. rewrite process_element_unfold.
  destruct (negb _ && _) eqn:Hskip.
  - apply (reflexivity (R := never_again r k)). exact Hl.
  - set (w1 := with_closures _ w).
    destruct (applyOperations_state r' element w1) as (_&_&Hc&_&_&_&Ha).
    destruct Hl as (c & Hlook & Hm & Hk). split.
    + unfold locked. rewrite Hc. subst w1. simpl.
      destruct (decide (r' = r)) as [-> | Hne].
      * exists (mark element c). rewrite list_lookup_alter_eq, Hlook. simpl.
        repeat split; [exact Hm |]. apply mark_gains, Hk.
      * exists c. rewrite list_lookup_alter_ne; auto.
    + exists [(r', element)]. split; [rewrite Ha; reflexivity |].
      intros n Hn. apply list_elem_of_singleton in Hn. inversion Hn; subst.
      intros Hid. rewrite (closure_lookup _ _ _ Hlook), Hm in Hskip.
      unfold map_get in Hskip. rewrite Hid, Hk in Hskip. discriminate.
Qed.

(** The two loops of the source run "process element" on what they visit. *)
Lemma match_existing_eq r sel w :
  match_existing r sel w =
  for_each (querySelectorAll (document w) sel) (process_element r) w.
Proof. reflexivity. Qed.

Lemma match_existing_marks_only r sel :
  preserves (marks_only r) (match_existing r sel).
Proof.
  apply preserves_bind; [apply preserves_gets | intros found].
  apply preserves_for_each. intros x. apply (process_element_marks_only r x).
Qed.

Lemma match_existing_never_again r k r' sel :
  preserves (never_again r k) (match_existing r' sel).
Proof.
  apply preserves_bind; [apply preserves_gets | intros found].
  apply preserves_for_each. intros x. apply (process_element_never_again r k r' x).
Qed.

Lemma observer_callback_visits r mutations w :
  observer_callback r mutations w =
  for_each mutations (fun mutation => for_each (addedNodes mutation) (visit r)) w.
Proof.
  unfold observer_callback. apply for_each_ext. intros mutation w1.
  apply for_each_ext. intros node w2.
  unfold visit, bind, gets. simpl.
  destruct (_ && _); [| reflexivity].
  unfold process_element, bind, gets. reflexivity.
Qed.

End ElementFacts.

#[local] Instance only_observer_preorder : PreOrder only_observer.
Proof.
  split.
  - intros w. unfold only_observer. tauto.
  - intros a b c (?&?&?&?&?) (?&?&?&?&?). unfold only_observer.
    repeat split; congruence.
Qed.

Section StepFacts.
Context `{Platform}.

Lemma ensure_observer_only_observer r tgt :
  preserves only_observer (ensure_observer r tgt).
Proof.
  intros w. unfold ensure_observer, bind, gets, modify. simpl.
  destruct (observer w); simpl; [reflexivity |].
  destruct tgt; simpl; unfold only_observer; simpl; repeat split; reflexivity.
Qed.

(** The first call: the observer is constructed and subscribed to the
    target when that is a node. *)
Lemma ensure_observer_first r n w :
  observer w = None ->
  ensure_observer r (VNode n) w =
  (Normal tt,
   with_observed (observed w ++ [(n, {| childList := true; subtree := true |})])
     (with_constructed (S (constructed w)) (with_observer (Some r) w))).
Proof.
  intros Hnone. unfold ensure_observer, bind, gets. simpl. rewrite Hnone.
  reflexivity.
Qed.

Lemma ensure_observer_later r tgt o w :
  observer w = Some o -> ensure_observer r tgt w = (Normal tt, w).
Proof.
  intros Hsome. unfold ensure_observer, bind, gets. simpl. rewrite Hsome.
  reflexivity.
Qed.

Lemma ensure_observer_keeps_observer r tgt :
  preserves keeps_observer (ensure_observer r tgt).
Proof.
  intros w Hobs. destruct (observer w) as [o |] eqn:Ho; [| congruence].
  rewrite (ensure_observer_later r tgt o w Ho). simpl.
  repeat split; congruence.
Qed.

(** The stages of a call: the closure is added, the observer is looked
    after, the existing elements are gone through. *)
Lemma querySelectorPerpetual_stages sel opts w :
  let r := length (closures w) in
  let c := new_closure sel opts w in
  let w1 := with_closures (closures w ++ [c]) w in
  querySelectorPerpetual sel opts w =
  match ensure_observer r (target c) w1 with
  | (Normal _, w2) =>
      match (if to_boolean (property (options c) "matchExisting")
             then match_existing r sel else ret tt) w2 with
      | (Normal _, w3) => (Normal (VHandle r), w3)
      | (Throw e, w3) => (Throw e, w3)
      end
  | (Throw e, w2) => (Throw e, w2)
  end.
Proof. reflexivity. Qed.

Lemma visit_marks_only r node : preserves (marks_only r) (visit r node).
Proof.
  apply preserves_bind; [apply preserves_gets | intros c].
  destruct (_ && _); [apply process_element_marks_only | apply preserves_ret].
Qed.

Lemma observer_callback_marks_only r mutations :
  preserves (marks_only r) (observer_callback r mutations).
Proof.
  intros w. rewrite observer_callback_visits.
  apply (preserves_for_each (R := marks_only r)). intros mutation.
  apply preserves_for_each. intros node. apply visit_marks_only.
Qed.

(** Calling a property of the handle: one of the four methods, which
    appends to the pipeline of its registration and returns the handle,
    or a [TypeError] that changes nothing. *)
Lemma call_method_cases h method f w :
  (exists k, assoc method [("forEach", ForEach); ("map", Map);
                           ("filter", Filter); ("sort", Sort)] = Some k /\
     call_method h method f w =
     (Normal (VHandle h),
      with_closures
        (alter (push_operation {| name := k; func := f |}) h (closures w)) w))
  \/ (assoc method handle = None /\ call_method h method f w = (Throw TypeError, w)).
Proof.
  unfold call_method, handle. cbn [assoc].
  destruct (String.eqb "forEach" method); [left; exists ForEach; split; reflexivity |].
  destruct (String.eqb "map" method); [left; exists Map; split; reflexivity |].
  destruct (String.eqb "filter" method); [left; exists Filter; split; reflexivity |].
  destruct (String.eqb "sort" method); [left; exists Sort; split; reflexivity |].
  right. split; reflexivity.
Qed.

End StepFacts.

(** ** Relations that every event preserves *)

Section EveryEvent.
Context `{Platform} (R : world -> world -> Prop) `{!PreOrder R}.
Hypothesis R_push : forall w c, R w (with_closures (closures w ++ [c]) w).
Hypothesis R_observer : forall r tgt, preserves R (ensure_observer r tgt).
Hypothesis R_process : forall r n, preserves R (process_element r n).
Hypothesis R_heap : forall w h, R w (with_heap h w).
Hypothesis R_document : forall w d, R w (with_document d w).
Hypothesis R_operation : forall w r op,
  R w (with_closures (alter (push_operation op) r (closures w)) w).

Lemma match_existing_preserves r sel : preserves R (match_existing r sel).
Proof.
  apply preserves_bind; [apply preserves_gets | intros found].
  apply preserves_for_each. intros x. apply (R_process r x).
Qed.

Lemma observer_callback_preserves r mutations :
  preserves R (observer_callback r mutations).
Proof.
  intros w. rewrite observer_callback_visits.
  apply (preserves_for_each (R := R)). intros mutation.
  apply preserves_for_each. intros node.
  apply preserves_bind; [apply preserves_gets | intros c].
  destruct (_ && _); [apply R_process | apply preserves_ret].
Qed.

Lemma querySelectorPerpetual_preserves sel opts :
  preserves R (querySelectorPerpetual sel opts).
Proof.
  unfold querySelectorPerpetual.
  apply preserves_bind; [apply preserves_gets | intros body].
  apply preserves_bind; [apply preserves_gets | intros given].
  apply preserves_bind; [apply preserves_gets | intros r].
  apply preserves_bind; [apply preserves_modify; intros w; apply R_push | intros _].
  apply preserves_bind; [apply R_observer | intros _].
  apply preserves_bind; [| intros _; apply preserves_ret].
  destruct (to_boolean _); [apply match_existing_preserves | apply preserves_ret].
Qed.

Lemma prototype_querySelectorPerpetual_preserves this sel opts :
  preserves R (prototype_querySelectorPerpetual this sel opts).
Proof.
  unfold prototype_querySelectorPerpetual.
  apply preserves_bind; [| intros o; apply querySelectorPerpetual_preserves].
  destruct opts as [l |].
  - apply preserves_bind; [| intros _; apply preserves_ret].
    apply preserves_modify. intros w. apply R_heap.
  - apply preserves_bind; [apply preserves_gets | intros l].
    apply preserves_bind; [| intros _; apply preserves_ret].
    apply preserves_modify. intros w. apply R_heap.
Qed.

Lemma call_method_preserves h method f : preserves R (call_method h method f).
Proof.
  intros w. destruct (call_method_cases h method f w) as [(k & _ & E) | (_ & E)];
    rewrite E; simpl; [apply R_operation | reflexivity].
Qed.

Lemma deliver_preserves mutations : preserves R (deliver mutations).
Proof.
  unfold deliver.
  apply preserves_bind; [apply preserves_gets | intros o].
  apply preserves_bind; [apply preserves_gets | intros subs].
  destruct o as [r |]; [| apply preserves_ret].
  destruct subs; [apply preserves_ret |].
  apply preserves_bind; [apply observer_callback_preserves | intros _; apply preserves_ret].
Qed.

Lemma step_preserves e : preserves R (step e).
Proof.
  destruct e; simpl.
  - apply querySelectorPerpetual_preserves.
  - apply prototype_querySelectorPerpetual_preserves.
  - apply call_method_preserves.
  - apply deliver_preserves.
  - apply preserves_bind; [| intros _; apply preserves_ret].
    apply preserves_modify. intros w. apply R_document.
  - apply preserves_bind; [| intros _; apply preserves_ret].
    apply preserves_modify. intros w. apply R_heap.
  - apply preserves_bind; [| intros _; apply preserves_ret].
    apply preserves_modify. intros w. apply R_heap.
Qed.

End EveryEvent.

Lemma run_preserves `{Platform} (R : world -> world -> Prop) `{!PreOrder R} :
  (forall e, preserves R (step e)) -> forall events w, R w (run events w).
Proof.
  intros Hstep events. induction events as [| e rest IH]; intros w; simpl.
  - reflexivity.
  - transitivity (snd (step e w)); [apply Hstep | apply IH].
Qed.

(** ** The single observer *)

Section Observer.
Context `{Platform}.

Lemma step_keeps_observer e : preserves keeps_observer (step e).
Proof.
  apply step_preserves; try apply _.
  - intros w c _. simpl. tauto.
  - apply ensure_observer_keeps_observer.
  - intros r n w. eapply marks_only_keeps_observer, process_element_marks_only.
  - intros w h _. simpl. tauto.
  - intros w d _. simpl. tauto.
  - intros w r op _. simpl. tauto.
Qed.

Lemma run_keeps_observer events w : keeps_observer w (run events w).
Proof. apply (run_preserves keeps_observer), step_keeps_observer. Qed.

Lemma property_resolve_options body given key :
  property (resolve_options body given) key =
  match given !! key with
  | Some v => v
  | None => property (resolve_options body ∅) key
  end.
Proof.
  unfold property, resolve_options, Object_assign.
  destruct (given !! key) as [v |] eqn:Hg.
  - rewrite (lookup_union_Some_l _ _ _ _ Hg). reflexivity.
  - rewrite (lookup_union_r _ _ _ Hg), (left_id_L ∅ (∪)). reflexivity.
Qed.

Lemma default_rootElement body : property (resolve_options body ∅) "rootElement" = body.
Proof.
  unfold property, resolve_options, Object_assign.
  rewrite (left_id_L ∅ (∪)).
  rewrite lookup_insert_ne by discriminate.
  rewrite lookup_insert_ne by discriminate.
  rewrite lookup_singleton_eq. reflexivity.
Qed.

(** The target of a call is the scope root the specification names. *)
Lemma target_is_scope_root sel opts w :
  target (new_closure sel opts w) = spec_scope_root w opts.
Proof.
  unfold new_closure, spec_scope_root. simpl.
  rewrite property_resolve_options, default_rootElement.
  unfold given_options. destruct opts as [l |]; [| rewrite lookup_empty; reflexivity].
  destruct (heap w !! l) as [obj |]; simpl; [reflexivity |].
  rewrite lookup_empty. reflexivity.
Qed.

(** The scan that follows leaves the observer alone. *)
Lemma scan_marks_only r sel (b : bool) :
  preserves (marks_only r) (if b then match_existing r sel else ret tt).
Proof. destruct b; [apply match_existing_marks_only | apply preserves_ret]. Qed.

(** C3.  Exactly one observer exists: the first call of
    [querySelectorPerpetual] constructs it and subscribes it to the scope
    root of that call with [subtree] coverage; whatever happens later,
    including calls with other selectors and other scope roots (directly
    or through the prototype bindings), no further observer is
    constructed and no further subscription is installed. *)
Theorem single_shared_observer (w : world) (sel : string) (opts : option loc)
    (later : list event) (root : node) :
  observer w = None -> constructed w = 0 -> observed w = [] ->
  spec_scope_root w opts = VNode root ->
  let w' := run later (snd (querySelectorPerpetual sel opts w)) in
  constructed w' = 1 /\
  observer w' = Some (length (closures w)) /\
  observed w' = [(root, {| childList := true; subtree := true |})].
Proof.
  intros Hnone Hzero Hempty Hroot w'.
  set (r := length (closures w)).
  set (c := new_closure sel opts w).
  set (w1 := with_closures (closures w ++ [c]) w).
  assert (observer (snd (querySelectorPerpetual sel opts w)) = Some r /\
          constructed (snd (querySelectorPerpetual sel opts w)) = 1 /\
          observed (snd (querySelectorPerpetual sel opts w)) =
            [(root, {| childList := true; subtree := true |})]) as Hfirst.
  { pose proof (querySelectorPerpetual_stages sel opts w) as Hq.
    cbv zeta in Hq. rewrite target_is_scope_root, Hroot in Hq.
    rewrite ensure_observer_first in Hq by exact Hnone.
    fold c r w1 in Hq. rewrite Hq. clear Hq.
    set (w2 := with_observed _ _).
    pose proof (scan_marks_only r sel
      (to_boolean (property (options c) "matchExisting")) w2)
      as (_ & _ & Ho & Hc & Hs & _).
    set (scan := (if to_boolean (property (options c) "matchExisting")
                  then match_existing r sel else ret tt) w2) in *.
    destruct scan as [[[] | e] w3]; simpl in *;
      rewrite Ho, Hc, Hs, Hzero, Hempty; auto. }
  destruct Hfirst as (Ho & Hc & Hs).
  destruct (run_keeps_observer later (snd (querySelectorPerpetual sel opts w)))
    as (Ho' & Hc' & Hs'); [congruence |].
  subst w'. rewrite Ho', Hc', Hs'. auto.
Qed.

End Observer.

(** ** The seen-set *)

Section SeenSet.
Context `{Platform}.

Lemma step_never_again r k e : preserves (never_again r k) (step e).
Proof.
  apply step_preserves; try apply _.
  - intros w c (c0 & Hl & Hm & Hk). split.
    + exists c0. simpl. rewrite (lookup_app_l_Some _ _ _ _ Hl). auto.
    + exists []. simpl. rewrite app_nil_r. split; [reflexivity |].
      intros n Hn. inversion Hn.
  - intros r0 tgt w. apply same_books_never_again.
    destruct (ensure_observer_only_observer r0 tgt w) as (_&_&?&_&?). split; assumption.
  - apply process_element_never_again.
  - intros w h. apply same_books_never_again. split; reflexivity.
  - intros w d. apply same_books_never_again. split; reflexivity.
  - intros w r0 op (c0 & Hl & Hm & Hk). split.
    + unfold locked. simpl. destruct (decide (r0 = r)) as [-> | Hne].
      * exists (push_operation op c0). rewrite list_lookup_alter_eq, Hl. auto.
      * exists c0. rewrite list_lookup_alter_ne; auto.
    + exists []. simpl. rewrite app_nil_r. split; [reflexivity |].
      intros n Hn. inversion Hn.
Qed.

(** C5.  With [matchReappearance] off, an element whose identity is in
    the seen-set of a registration stays there, and whatever happens
    later (mutation batches that add it again after a removal, further
    registrations, chained operations, changes of the document) that
    registration runs its pipeline on no node with that identity; the
    scan loop of the registration, were it to run in such a later
    state, skips it as well. *)
Theorem seen_element_not_processed_again (w : world) (r : regid)
    (c : registration) (e : node) (later : list event) :
  closures w !! r = Some c ->
  to_boolean (property (options c) "matchReappearance") = false ->
  elementInvocationMap c !! ident e = Some true ->
  let w' := run later w in
  (exists c', closures w' !! r = Some c' /\
              elementInvocationMap c' !! ident e = Some true) /\
  (exists more, applied w' = applied w ++ more /\
                forall n, (r, n) ∈ more -> ident n <> ident e) /\
  (forall sel, exists more,
     applied (snd (match_existing r sel w')) = applied w' ++ more /\
     forall n, (r, n) ∈ more -> ident n <> ident e).
Proof.
  intros Hc Hm Hk w'.
  assert (never_again r (ident e) w w') as Hnever.
  { apply (run_preserves (never_again r (ident e))), step_never_again. }
  destruct Hnever as (Hl & more & Hmore & Hnot).
  { exists c. auto. }
  split; [| split].
  - destruct Hl as (c' & Hc' & _ & Hk'). exists c'. auto.
  - exists more. auto.
  - intros sel.
    destruct (match_existing_never_again r (ident e) r sel w' Hl) as (_ & Hscan).
    exact Hscan.
Qed.

End SeenSet.

(** ** The callback of the observer *)

Lemma for_each_concat {A B} (items : list A) (g : A -> list B)
    (f : B -> M unit) w :
  for_each items (fun x => for_each (g x) f) w =
  for_each (concat (map g items)) f w.
Proof.
  revert w. induction items as [| x rest IH]; intros w; simpl.
  - reflexivity.
  - rewrite for_each_app. unfold bind.
    destruct (for_each (g x) f w) as [[[] | e] w1]; [apply IH | reflexivity].
Qed.

Lemma marks_only_closure r w w' :
  marks_only r w w' -> gains_marks (closure r w) (closure r w').
Proof.
  intros (_&_&_&_&_&Hlen&_&Hr). unfold closure.
  destruct (closures w !! r) as [c |] eqn:Hc.
  - destruct (Hr c eq_refl) as (c' & Hc' & Hg). rewrite Hc'. exact Hg.
  - apply lookup_ge_None in Hc. rewrite <- Hlen in Hc.
    apply lookup_ge_None in Hc. rewrite Hc. reflexivity.
Qed.

Section Callback.
Context `{Platform}.

Lemma visits_are_processing r nodes w :
  for_each nodes (visit r) w =
  for_each (List.filter (qualifies (selector (closure r w))) nodes)
    (process_element r) w.
Proof.
  revert w. induction nodes as [| x rest IH]; intros w; simpl; [reflexivity |].
  unfold bind at 1, visit at 1, bind at 1, gets at 1.
  fold (qualifies (selector (closure r w)) x).
  destruct (qualifies (selector (closure r w)) x); simpl.
  - unfold bind.
    pose proof (process_element_marks_only r x w) as Hm.
    destruct (process_element r x w) as [[[] | e] w1]; [| reflexivity].
    simpl in Hm. rewrite IH.
    destruct (marks_only_closure _ _ _ Hm) as (-> & _). reflexivity.
  - apply IH.
Qed.

(** The callback is one loop over the qualifying added nodes. *)
Lemma observer_callback_processing r mutations w :
  observer_callback r mutations w =
  for_each
    (List.filter (qualifies (selector (closure r w))) (added_nodes mutations))
    (process_element r) w.
Proof.
  rewrite observer_callback_visits.
  rewrite (for_each_concat mutations addedNodes (visit r)).
  apply visits_are_processing.
Qed.

(** What a throw does to the rest of a batch. *)
Lemma callback_stops_at_throw r mutations w before x after w1 e w2 :
  List.filter (qualifies (selector (closure r w))) (added_nodes mutations)
    = before ++ x :: after ->
  for_each before (process_element r) w = (Normal tt, w1) ->
  process_element r x w1 = (Throw e, w2) ->
  observer_callback r mutations w = (Throw e, w2).
Proof.
  intros Hsplit Hbefore Hx.
  pose proof (observer_callback_processing r mutations w) as E.
  rewrite Hsplit in E. rewrite E.
  rewrite for_each_app. unfold bind at 1. rewrite Hbefore. simpl.
  unfold bind. rewrite Hx. reflexivity.
Qed.

Lemma deliver_state batch w r :
  observer w = Some r -> observed w <> [] ->
  snd (deliver batch w) = snd (observer_callback r batch w).
Proof.
  intros Ho Hs. unfold deliver, bind at 1, gets at 1, bind at 1, gets at 1.
  rewrite Ho. destruct (observed w); [congruence |].
  unfold bind. destruct (observer_callback r batch w) as [[[] | e] w1]; reflexivity.
Qed.

(** One delivery whose only added node is a matching element, with
    [matchReappearance] on: the element is processed, seen or not. *)
Lemma deliver_reappearance w r c e batch :
  observer w = Some r -> observed w <> [] -> closures w !! r = Some c ->
  to_boolean (property (options c) "matchReappearance") = true ->
  qualifies (selector c) e = true ->
  added_nodes batch = [e] ->
  let w' := snd (deliver batch w) in
  observer w' = Some r /\ observed w' = observed w /\
  closures w' !! r = Some (mark e c) /\
  applied w' = applied w ++ [(r, e)].
Proof.
  intros Ho Hs Hc Hm Hq Hadded w'.
  set (w1 := with_closures (alter (mark e) r (closures w)) w).
  assert (w' = snd (applyOperations r e w1)) as ->.
  { subst w'. rewrite (deliver_state batch w r Ho Hs).
    rewrite observer_callback_processing, Hadded.
    rewrite (closure_lookup _ _ _ Hc). simpl. rewrite Hq. simpl.
    unfold bind. rewrite process_element_unfold.
    rewrite (closure_lookup _ _ _ Hc), Hm. simpl. fold w1.
    destruct (applyOperations r e w1) as [[[] | err] w2]; reflexivity. }
  destruct (applyOperations_state r e w1) as (_&_&Hcl&Hob&_&Hsu&Hap).
  rewrite Hcl, Hob, Hsu, Hap. subst w1. simpl.
  rewrite list_lookup_alter_eq, Hc. auto.
Qed.

(** C7 (as amended).  On a batch the callback goes through the added
    nodes of all records in order and runs "process element" on exactly
    those that are element nodes matching the selector of the
    registration the callback belongs to; other nodes are passed over
    without error.  The nodes are not checked independently of each
    other: the walk is one loop, and when the pipeline throws for a node
    the callback ends there, in the state that node left, without
    looking at the nodes after it. *)
Theorem callback_processes_qualifying_nodes (r : regid)
    (mutations : list MutationRecord) (w : world) :
  observer_callback r mutations w =
  for_each
    (List.filter (qualifies (selector (closure r w))) (added_nodes mutations))
    (process_element r) w /\
  (forall before x after w1 e w2,
     List.filter (qualifies (selector (closure r w))) (added_nodes mutations)
       = before ++ x :: after ->
     for_each before (process_element r) w = (Normal tt, w1) ->
     process_element r x w1 = (Throw e, w2) ->
     observer_callback r mutations w = (Throw e, w2)).
Proof.
  split; [apply observer_callback_processing |].
  intros before x after w1 e w2. apply callback_stops_at_throw.
Qed.

(** With [matchReappearance] on, "process element" is marking and
    running the pipeline, with no look at the seen-set. *)
Lemma processing_without_check r nodes w :
  to_boolean (property (options (closure r w)) "matchReappearance") = true ->
  for_each nodes (process_element r) w =
  for_each nodes
    (fun n => update_closure r (mark n) ;; applyOperations r n) w.
Proof.
  revert w. induction nodes as [| x rest IH]; intros w Hm; simpl; [reflexivity |].
  assert (process_element r x w =
          (update_closure r (mark x) ;; applyOperations r x) w) as E.
  { rewrite process_element_unfold, Hm. reflexivity. }
  pose proof (process_element_marks_only r x w) as Hstep.
  rewrite (bind_apply (process_element r x)).
  rewrite (bind_apply (update_closure r (mark x) ;; applyOperations r x)).
  rewrite <- E.
  destruct (process_element r x w) as [[[] | e] w1]; [| reflexivity].
  apply IH. simpl in Hstep.
  destruct (marks_only_closure _ _ _ Hstep) as (_ & -> & _). exact Hm.
Qed.

Lemma reappearances_processed w r c e batches :
  observer w = Some r -> observed w <> [] -> closures w !! r = Some c ->
  to_boolean (property (options c) "matchReappearance") = true ->
  qualifies (selector c) e = true ->
  Forall (fun batch => added_nodes batch = [e]) batches ->
  applied (run (map Deliver batches) w) =
  applied w ++ repeat (r, e) (length batches).
Proof.
  intros Ho Hs Hc Hm Hq Hall. revert w c Ho Hs Hc Hm Hq.
  induction Hall as [| batch rest Hbatch _ IH]; intros w c Ho Hs Hc Hm Hq; simpl.
  - rewrite app_nil_r. reflexivity.
  - destruct (deliver_reappearance w r c e batch Ho Hs Hc Hm Hq Hbatch)
      as (Ho' & Hs' & Hc' & Ha').
    rewrite (IH _ (mark e c)); auto.
    + rewrite Ha', <- app_assoc. reflexivity.
    + rewrite Hs'. exact Hs.
Qed.

(** Processing only adds to the trace and leaves the options alone. *)
Lemma processing_extends_trace r l w :
  exists more,
    applied (snd (for_each l (process_element r) w)) = applied w ++ more.
Proof.
  revert w. induction l as [| x rest IH]; intros w; simpl.
  - exists []. symmetry. apply app_nil_r.
  - rewrite bind_apply.
    assert (exists m1, applied (snd (process_element r x w)) = applied w ++ m1)
      as (m1 & E1).
    { rewrite process_element_unfold. destruct (negb _ && _).
      - exists []. symmetry. apply app_nil_r.
      - destruct (applyOperations_state r x
          (with_closures (alter (mark x) r (closures w)) w))
          as (_&_&_&_&_&_&Ha).
        exists [(r, x)]. exact Ha. }
    destruct (process_element r x w) as [[[] | e] w1]; simpl in *.
    + destruct (IH w1) as (m2 & E2). exists (m1 ++ m2).
      rewrite E2, E1, app_assoc. reflexivity.
    + exists m1. exact E1.
Qed.

Lemma processing_keeps_options r l w :
  options (closure r (snd (for_each l (process_element r) w)))
  = options (closure r w).
Proof.
  assert (marks_only r w (snd (for_each l (process_element r) w))) as Hm.
  { apply (preserves_for_each (R := marks_only r)). intros x.
    apply process_element_marks_only. }
  destruct (marks_only_closure _ _ _ Hm) as (_ & E & _). exact E.
Qed.

(** With [matchReappearance] on, a qualifying added node that the loop
    reaches is processed, whatever the seen-set holds. *)
Lemma reached_node_is_processed w r c mutations before e after w1 :
  closures w !! r = Some c ->
  to_boolean (property (options c) "matchReappearance") = true ->
  List.filter (qualifies (selector c)) (added_nodes mutations)
    = before ++ e :: after ->
  for_each before (process_element r) w = (Normal tt, w1) ->
  exists more,
    applied (snd (observer_callback r mutations w))
    = applied w1 ++ (r, e) :: more.
Proof.
  intros Hc Hm Hsplit Hbefore.
  rewrite observer_callback_processing, (closure_lookup _ _ _ Hc), Hsplit.
  rewrite for_each_app, bind_apply, Hbefore. simpl. rewrite bind_apply.
  assert (options (closure r w1) = options c) as Hopts.
  { pose proof (processing_keeps_options r before w) as E.
    rewrite Hbefore, (closure_lookup _ _ _ Hc) in E. exact E. }
  rewrite process_element_unfold, Hopts, Hm. simpl.
  set (w1m := with_closures (alter (mark e) r (closures w1)) w1).
  destruct (applyOperations_state r e w1m) as (_&_&_&_&_&_&Ha).
  destruct (applyOperations r e w1m) as [[[] | err] w2]; simpl in *.
  - destruct (processing_extends_trace r after w2) as (more & E).
    exists more. rewrite E, Ha, <- app_assoc. reflexivity.
  - exists []. exact Ha.
Qed.

(** C6 (as amended).  With [matchReappearance] on, the callback, which
    runs in the closure of the registration whose call created the
    observer, does not consult the seen-set: on every batch it is a loop
    with no membership check in it that marks and runs the pipeline on
    the added nodes that are elements matching the selector.  Every such
    node that the loop reaches (no node before it in the batch made the
    pipeline throw) is run through the pipeline, seen before or not; so
    an element that is reported as added again is processed again, once
    per report: [n] batches that each report it alone give [n] more runs
    of the pipeline on it, whether or not the pipeline throws.  Nodes
    that are inserted without being an added node of a record (inside an
    added subtree), nodes after a throw in the same batch and the
    registrations the observer does not belong to are not covered. *)
Theorem reappearing_element_processed_each_time (w : world) (r : regid)
    (c : registration) :
  closures w !! r = Some c ->
  to_boolean (property (options c) "matchReappearance") = true ->
  (forall mutations,
     observer_callback r mutations w =
     for_each
       (List.filter (qualifies (selector c)) (added_nodes mutations))
       (fun n => update_closure r (fun c =>
                   with_map (<[ident n := true]> (elementInvocationMap c)) c) ;;
                 applyOperations r n) w) /\
  (forall mutations before e after w1,
     List.filter (qualifies (selector c)) (added_nodes mutations)
       = before ++ e :: after ->
     for_each before (process_element r) w = (Normal tt, w1) ->
     exists more,
       applied (snd (observer_callback r mutations w))
       = applied w1 ++ (r, e) :: more) /\
  (forall (e : node) (batches : list (list MutationRecord)),
     observer w = Some r -> observed w <> [] ->
     nodeType e = ELEMENT_NODE -> node_matches (selector c) e = true ->
     Forall (fun batch => added_nodes batch = [e]) batches ->
     applied (run (map Deliver batches) w) =
     applied w ++ repeat (r, e) (length batches)).
Proof.
  intros Hc Hm. split; [| split].
  - intros mutations. rewrite observer_callback_processing.
    rewrite (closure_lookup _ _ _ Hc).
    apply processing_without_check.
    rewrite (closure_lookup _ _ _ Hc). exact Hm.
  - intros mutations before e after w1.
    apply (reached_node_is_processed w r c); assumption.
  - intros e batches Ho Hs Hty Hmatch Hall.
    apply (reappearances_processed w r c e batches); auto.
    unfold qualifies. rewrite Hty, Hmatch. reflexivity.
Qed.

End Callback.

(** ** The handle *)

Section Handle.
Context `{Platform}.


End Handle.

(** ** Independent registrations *)

#[local] Instance marks_within_preorder S r : PreOrder (marks_within S r).
Proof.
  split.
  - intros w c Hc. exists c. auto.
  - intros a b d Hab Hbd c Hc. destruct (Hab c Hc) as (c1 & Hc1 & Ho1 & Hk1).
    destruct (Hbd c1 Hc1) as (c2 & Hc2 & Ho2 & Hk2).
    exists c2. repeat split; [exact Hc2 | congruence |].
    intros k Hk. destruct (Hk2 k Hk) as [Hin | Hnew]; auto.
Qed.


Section Independence.
Context `{Platform}.


(** The state a call ends in: the closure is added, the observer is
    looked after, and the scan (if it runs) has gone through the
    matches. *)
Lemma querySelectorPerpetual_state sel opts w :
  exists w2 (b : bool),
    only_observer
      (with_closures (closures w ++ [new_closure sel opts w]) w) w2 /\
    snd (querySelectorPerpetual sel opts w) =
    snd ((if b then match_existing (length (closures w)) sel else ret tt) w2).
Proof.
  rewrite querySelectorPerpetual_stages. cbv zeta.
  pose proof (ensure_observer_only_observer (length (closures w))
    (target (new_closure sel opts w))
    (with_closures (closures w ++ [new_closure sel opts w]) w)) as Hobs.
  destruct (ensure_observer _ _ _) as [[[] | e] w2].
  - exists w2, (to_boolean (property (options (new_closure sel opts w)) "matchExisting")).
    split; [exact Hobs |].
    match goal with
    | |- context [(if ?b then ?f else ?g) w2] =>
        destruct ((if b then f else g) w2) as [[[] | e] w3]; reflexivity
    end.
  - exists w2, false. split; [exact Hobs | reflexivity].
Qed.





End Independence.

(** ** The prototype bindings *)

Section Bindings.
Context `{Platform}.

Lemma querySelectorPerpetual_keeps_heap sel opts :
  preserves keeps_heap (querySelectorPerpetual sel opts).
Proof.
  apply querySelectorPerpetual_preserves; try apply _.
  - intros w c. reflexivity.
  - intros r tgt w. destruct (ensure_observer_only_observer r tgt w) as (_&?&_).
    assumption.
  - intros r n w. eapply marks_only_keeps_heap, process_element_marks_only.
Qed.

(** C10.  The bindings on the document and element prototypes write into
    the options object they are given: after the call (whether it
    returns or throws) that same object has its [rootElement] property
    set to the receiver, and its other properties are as before. *)
Theorem binding_writes_rootElement_into_options (w : world) (this : node)
    (sel : string) (l : loc) (obj : gmap string jsval) :
  heap w !! l = Some obj ->
  heap (snd (prototype_querySelectorPerpetual this sel (Some l) w)) !! l =
  Some (<["rootElement" := VNode this]> obj).
Proof.
  intros Hobj. unfold prototype_querySelectorPerpetual, bind at 1. simpl.
  rewrite (querySelectorPerpetual_keeps_heap sel (Some l)). simpl.
  rewrite list_lookup_alter_eq, Hobj. simpl. f_equal.
  unfold Object_assign. symmetry. apply insert_union_singleton_l.
Qed.

End Bindings.

(** ** The pipeline and the caller's functions *)

#[local] Instance silent_preorder r : PreOrder (silent r).
Proof.
  split.
  - intros w Hw. auto.
  - intros a b c Hab Hbc Ha. destruct (Hab Ha) as [Hb E1].
    destruct (Hbc Hb) as [Hc E2]. split; congruence.
Qed.

Section Pipeline.
Context `{Platform}.

Lemma first_arg_of_function_object f :
  plain_function f ->
  first_arg (map (fn_indexed (fn f)) (seq 0 (fn_length (fn f)))) = VUndefined.
Proof.
  intros Hplain. destruct (fn_length (fn f)); [reflexivity |]. apply Hplain.
Qed.

(** One step of the pipeline when the operation holds a function: the
    function object is read as the list of arguments, so the method gets
    [undefined] where its callback should be. *)
Lemma step_with_function k f x w :
  plain_function f ->
  apply_method (Array_prototype k) (VArr [x]) (VFun f) w =
  (match k with Sort => Normal (VArr [x]) | _ => Throw TypeError end, w).
Proof.
  intros Hplain. unfold apply_method, bind, lift. simpl.
  destruct k; simpl;
    unfold Array_forEach, Array_map, Array_filter, Array_sort;
    rewrite (first_arg_of_function_object f Hplain); reflexivity.
Qed.

Lemma reduce_with_functions ops x w :
  Forall (fun op => exists f, func op = VFun f /\ plain_function f) ops ->
  reduce ops
    (fun prev operation =>
       apply_method (Array_prototype (name operation)) prev (func operation))
    (VArr [x]) w =
  (if forallb is_sort ops then Normal (VArr [x]) else Throw TypeError, w).
Proof.
  induction 1 as [| op rest (f & Hf & Hplain) _ IH]; simpl; [reflexivity |].
  unfold bind. rewrite Hf, (step_with_function _ _ _ _ Hplain). unfold is_sort.
  destruct (name op); simpl; try reflexivity. exact IH.
Qed.

(** When every operation holds a function without indexed properties,
    as the handle is meant to be used, [applyOperations] calls none of
    them: it throws a [TypeError] at the first operation that is not
    [sort], and a [sort] runs without its comparator. *)
Lemma applyOperations_calls_no_function r element w :
  Forall (fun op => exists f, func op = VFun f /\ plain_function f)
    (operations (closure r w)) ->
  applyOperations r element w =
  (if forallb is_sort (operations (closure r w))
   then Normal tt else Throw TypeError,
   with_applied (applied w ++ [(r, element)]) w).
Proof.
  intros Hops. unfold applyOperations, bind at 1, modify at 1.
  unfold bind at 1, gets at 1. unfold bind.
  change (closure r (with_applied (applied w ++ [(r, element)]) w))
    with (closure r w).
  rewrite (reduce_with_functions _ _ _ Hops).
  destruct (forallb _ _); reflexivity.
Qed.

Lemma applyOperations_empty r element w :
  operations (closure r w) = [] ->
  applyOperations r element w =
  (Normal tt, with_applied (applied w ++ [(r, element)]) w).
Proof.
  intros Hops. rewrite applyOperations_calls_no_function; rewrite Hops.
  - reflexivity.
  - constructor.
Qed.

Lemma process_element_silent r element :
  preserves (silent r) (process_element r element).
Proof.
  intros w Hw. rewrite process_element_unfold. destruct (negb _ && _); [auto |].
  set (w1 := with_closures _ w).
  assert (operations (closure r w1) = []) as H1.
  { subst w1. unfold closure in *. simpl. rewrite list_lookup_alter_eq.
    destruct (closures w !! r); simpl in *; [exact Hw | reflexivity]. }
  rewrite (applyOperations_empty _ _ _ H1). simpl. split; [exact H1 | reflexivity].
Qed.

(** The scan of a call runs while the pipeline of the call is still
    empty (the handle has not been returned yet): no function of the
    caller is called during [querySelectorPerpetual]. *)
Lemma registration_calls_no_function sel opts w :
  calls (snd (querySelectorPerpetual sel opts w)) = calls w.
Proof.
  destruct (querySelectorPerpetual_state sel opts w) as (w2 & b & (_&_&H2&Hc&_) & ->).
  assert (silent (length (closures w)) w2
            (snd ((if b then match_existing (length (closures w)) sel
                   else ret tt) w2))) as Hs.
  { destruct b; [| reflexivity].
    apply preserves_bind; [apply preserves_gets | intros found].
    apply preserves_for_each. intros x. apply process_element_silent. }
  destruct Hs as [_ ->]; [| exact Hc].
  unfold closure. rewrite H2. simpl.
  rewrite list_lookup_middle by reflexivity. reflexivity.
Qed.

End Pipeline.

(** ** The code on the test page *)

Module OnPage.
Import Page.

#[local] Existing Instance browser.

(** C1.  The pipeline does not run the caller's function as the
    callback.  On the test page with [forEach(spy)] chained, processing
    a new item throws a [TypeError] and [spy] is not called, while the
    pipeline of the specification calls [spy] with the item, its index
    and the one-element array, and returns. *)
Theorem forEach_callback_is_not_called :
  fst (applyOperations 0 item3 watching) = Throw TypeError /\
  calls (snd (applyOperations 0 item3 watching)) = [] /\
  fst (spec_applyOperations 0 item3 watching) = Normal tt /\
  calls (snd (spec_applyOperations 0 item3 watching)) =
    [(spy, [VNode item3; VNum 0; VArr [VNode item3]])].
Proof. vm_compute. repeat split. Qed.

(** C2.  Chaining after the call does not reach the elements that were
    there at the call.  On the test page
    [querySelectorPerpetual(".item").map(textOf)] returns the handle and
    not the array of texts; [textOf] has not been called; both items
    have already been run through the pipeline while it was empty, and
    both are marked as seen. *)
Theorem chained_map_misses_existing_elements :
  let registered := querySelectorPerpetual ".item" None (initial page) in
  let chained := call_method 0 "map" (VFun textOf) (snd registered) in
  fst registered = Normal (VHandle 0) /\
  applied (snd registered) = [(0, item1); (0, item2)] /\
  operations (closure 0 (snd registered)) = [] /\
  fst chained = Normal (VHandle 0) /\
  fst chained <> Normal (VArr [VStr "Item 1"; VStr "Item 2"]) /\
  calls (snd chained) = [] /\
  applied (snd chained) = [(0, item1); (0, item2)] /\
  map_get (elementInvocationMap (closure 0 (snd chained))) item1 = true /\
  map_get (elementInvocationMap (closure 0 (snd chained))) item2 = true.
Proof. vm_compute. repeat split. discriminate. Qed.

(** C4.  The scan does not stay below the scope root.  On a page with
    one item inside a box and one outside it, [box.querySelectorPerpetual(".item")]
    has the box as its target, the box contains only the inner item,
    and yet both items are processed and marked. *)
Theorem scan_leaves_the_scope_root :
  let w := snd (prototype_querySelectorPerpetual box ".item" None (initial page2)) in
  target (closure 0 w) = VNode box /\
  spec_scan (target (closure 0 w)) ".item" = [inside] /\
  applied w = [(0, inside); (0, outside)] /\
  map_get (elementInvocationMap (closure 0 w)) outside = true.
Proof. vm_compute. repeat split. Qed.

(** C7, as stated, fails.  With [forEach(spy)] chained, a batch adds
    [item3] and [item4]; both are element nodes that match, but the
    pipeline throws for [item3] and [item4] is never looked at: it is
    neither processed nor marked. *)
Lemma second_added_node_is_not_checked :
  let batch := [{| addedNodes := [item3; item4]; removedNodes := [] |}] in
  let w' := snd (deliver batch watching) in
  observer watching = Some 0 /\
  List.filter (qualifies (selector (closure 0 watching))) (added_nodes batch)
    = [item3; item4] /\
  fst (deliver batch watching) = Throw TypeError /\
  applied w' = applied watching ++ [(0, item3)] /\
  map_get (elementInvocationMap (closure 0 w')) item3 = true /\
  map_get (elementInvocationMap (closure 0 w')) item4 = false.
Proof. vm_compute. repeat split. Qed.

(** C6, as stated, fails.  With [matchReappearance] on, an element
    that matches and is inserted is not always run through the pipeline:
    [item1] put back inside a new element is not looked at (only the new
    element is an added node); [item1] put back in the same batch after
    [item3], whose pipeline throws, is not reached; and a [section]
    added after a second call, for [section], is processed by no
    registration, because the callback is that of the first call. *)
Lemma reinserted_element_is_not_always_processed :
  (to_boolean (property (options (closure 0 reappearing)) "matchReappearance")
     = true /\
   descendants rewrapped = [item1; TextNode 13 "Item 1"] /\
   qualifies (selector (closure 0 reappearing)) item1 = true /\
   deliver [added rewrapped] reappearing = (Normal VUndefined, reappearing)) /\
  (to_boolean (property (options (closure 0 reappearing_watching))
                 "matchReappearance") = true /\
   qualifies (selector (closure 0 reappearing_watching)) item1 = true /\
   fst (deliver [added item3; added item1] reappearing_watching)
     = Throw TypeError /\
   applied (snd (deliver [added item3; added item1] reappearing_watching))
     = applied reappearing_watching ++ [(0, item3)]) /\
  (to_boolean (property (options (closure 1 reappearing_twice))
                 "matchReappearance") = true /\
   observer reappearing_twice = Some 0 /\
   qualifies (selector (closure 1 reappearing_twice)) wrapper = true /\
   deliver [added wrapper] reappearing_twice
     = (Normal VUndefined, reappearing_twice)).
Proof. vm_compute. repeat split. Qed.

(** *** The theorems above at work on the page *)

(** C3 on the page: the first call watches the body; a call with another
    selector, a call on the container and a delivery come after it. *)
Lemma single_shared_observer_on_page :
  let later := [Register "div" None; RegisterOn container ".item" None;
                Deliver [added item3]] in
  let w' := run later (snd (querySelectorPerpetual ".item" None (initial page))) in
  constructed w' = 1 /\ observer w' = Some 0 /\
  observed w' = [(body, {| childList := true; subtree := true |})].
Proof.
  apply (single_shared_observer (initial page) ".item" None
           [Register "div" None; RegisterOn container ".item" None;
            Deliver [added item3]] body);
    vm_compute; reflexivity.
Defined.

(** C5 on the page: [item1] is added again, alone and together with a
    new item, and is not processed again. *)
Lemma seen_element_not_processed_again_on_page :
  let later := [Deliver [added item1]; Chain 0 "sort" (VFun spy);
                Deliver [added item3; added item1]] in
  let w' := run later scanned in
  (exists c', closures w' !! 0 = Some c' /\
              elementInvocationMap c' !! ident item1 = Some true) /\
  (exists more, applied w' = applied scanned ++ more /\
                forall n, (0, n) ∈ more -> ident n <> ident item1) /\
  (forall sel, exists more,
     applied (snd (match_existing 0 sel w')) = applied w' ++ more /\
     forall n, (0, n) ∈ more -> ident n <> ident item1).
Proof.
  apply (seen_element_not_processed_again scanned 0 (closure 0 scanned) item1
           [Deliver [added item1]; Chain 0 "sort" (VFun spy);
            Deliver [added item3; added item1]]);
    vm_compute; reflexivity.
Defined.

(** C6 on the page: [item1], processed by the scan, is taken out and put
    back twice and is processed twice more. *)
Lemma reappearing_element_processed_each_time_on_page :
  let batches :=
    [ [ {| addedNodes := []; removedNodes := [item1] |}; added item1 ];
      [ added item1 ] ] in
  applied (run (map Deliver batches) reappearing) =
  applied reappearing ++ repeat (0, item1) 2.
Proof.
  assert (closures reappearing !! 0 = Some (closure 0 reappearing)) as Hc
    by (vm_compute; reflexivity).
  assert (to_boolean (property (options (closure 0 reappearing))
                        "matchReappearance") = true) as Hm
    by (vm_compute; reflexivity).
  apply (proj2 (proj2 (reappearing_element_processed_each_time reappearing 0
                         (closure 0 reappearing) Hc Hm)) item1).
  - vm_compute; reflexivity.
  - vm_compute; discriminate.
  - vm_compute; reflexivity.
  - vm_compute; reflexivity.
  - repeat constructor.
Defined.

(** C10 on the page: the caller's object [{ matchExisting: false }] has
    received the container as [rootElement]. *)
Lemma binding_writes_rootElement_on_page :
  let mine : gmap string jsval := {[ "matchExisting" := VBool false ]} in
  let w := run [NewObject mine] (initial page) in
  heap (snd (prototype_querySelectorPerpetual container ".item" (Some 0) w)) !! 0 =
  Some (<["rootElement" := VNode container]> mine).
Proof.
  apply (binding_writes_rootElement_into_options
           (run [NewObject {[ "matchExisting" := VBool false ]}] (initial page))
           container ".item" 0 {[ "matchExisting" := VBool false ]}).
  vm_compute; reflexivity.
Defined.

End OnPage.

(** * Further properties of the code *)

(** ** What a call does *)

Section Calls.
Context `{Platform}.

(** X1.  When every operation of the pipeline holds a function that
    has no integer-indexed property of its own (any function that has
    not been given such properties by hand), [applyOperations] calls
    none of them: it records the element, and then returns if all
    operations are [sort] and throws a [TypeError] otherwise; nothing
    else changes. *)
Theorem pipeline_of_functions_calls_none (r : regid) (element : node) (w : world) :
  Forall (fun op => exists f, func op = VFun f /\ plain_function f)
    (operations (closure r w)) ->
  applyOperations r element w =
  (if forallb is_sort (operations (closure r w))
   then Normal tt else Throw TypeError,
   with_applied (applied w ++ [(r, element)]) w).
Proof. apply applyOperations_calls_no_function. Qed.

Lemma pushed_closure sel opts w :
  closure (length (closures w))
    (with_closures (closures w ++ [new_closure sel opts w]) w)
  = new_closure sel opts w.
Proof.
  unfold closure. simpl. rewrite list_lookup_middle by reflexivity. reflexivity.
Qed.

(** X2.  Given a selector that parses and an options object with data
    properties only (no getter for [Object.assign] to run), no function
    of the caller is called while [querySelectorPerpetual] runs,
    directly or through a prototype binding: the elements that exist
    are gone through before the caller can chain anything, so no
    function given to the handle can be reached. *)
Theorem no_function_called_while_registering :
  (forall sel opts w,
     calls (snd (querySelectorPerpetual sel opts w)) = calls w) /\
  (forall this sel opts w,
     calls (snd (prototype_querySelectorPerpetual this sel opts w)) = calls w).
Proof.
  split; [apply registration_calls_no_function |].
  intros this sel opts w. unfold prototype_querySelectorPerpetual.
  rewrite bind_apply. destruct opts as [l |]; simpl;
    rewrite registration_calls_no_function; reflexivity.
Qed.

Lemma process_element_empty r n w :
  operations (closure r w) = [] ->
  fst (process_element r n w) = Normal tt /\
  operations (closure r (snd (process_element r n w))) = [].
Proof.
  intros Hw. rewrite process_element_unfold. destruct (negb _ && _); [auto |].
  set (w1 := with_closures _ w).
  assert (operations (closure r w1) = []) as H1.
  { subst w1. unfold closure in *. simpl. rewrite list_lookup_alter_eq.
    destruct (closures w !! r); simpl in *; [exact Hw | reflexivity]. }
  rewrite (applyOperations_empty _ _ _ H1). simpl. split; [reflexivity | exact H1].
Qed.

Lemma scan_returns r (b : bool) sel w :
  operations (closure r w) = [] ->
  fst ((if b then match_existing r sel else ret tt) w) = Normal tt.
Proof.
  intros Hw. destruct b; [| reflexivity]. rewrite match_existing_eq.
  generalize (querySelectorAll (document w) sel). intros found.
  revert w Hw. induction found as [| x rest IH]; intros w Hw; simpl; [reflexivity |].
  rewrite bind_apply. destruct (process_element_empty r x w Hw) as [E1 E2].
  destruct (process_element r x w) as [[[] | e] w1]; simpl in *;
    [apply IH; exact E2 | discriminate].
Qed.

Lemma stage_outcome r (b : bool) sel w :
  operations (closure r w) = [] ->
  fst (match (if b then match_existing r sel else ret tt) w with
       | (Normal _, w3) => (Normal (VHandle r), w3)
       | (Throw e, w3) => (Throw e, w3)
       end) = Normal (VHandle r).
Proof.
  intros Hw. pose proof (scan_returns r b sel w Hw) as E.
  destruct ((if b then match_existing r sel else ret tt) w) as [[[] | e] w3];
    simpl in *; [reflexivity | discriminate].
Qed.

Lemma call_outcome sel opts w :
  fst (querySelectorPerpetual sel opts w) =
  match observer w with
  | Some _ => Normal (VHandle (length (closures w)))
  | None =>
      match spec_scope_root w opts with
      | VNode _ => Normal (VHandle (length (closures w)))
      | _ => Throw TypeError
      end
  end.
Proof.
  rewrite querySelectorPerpetual_stages. cbv zeta. rewrite target_is_scope_root.
  set (w1 := with_closures (closures w ++ [new_closure sel opts w]) w).
  assert (operations (closure (length (closures w)) w1) = []) as H1.
  { subst w1. rewrite pushed_closure. reflexivity. }
  destruct (observer w) as [o |] eqn:Ho.
  - rewrite (ensure_observer_later _ _ o w1) by exact Ho.
    apply stage_outcome, H1.
  - destruct (spec_scope_root w opts) as [| | | | | n | | |] eqn:Hroot;
      try (unfold ensure_observer, bind, gets; simpl; rewrite Ho; reflexivity).
    rewrite ensure_observer_first by exact Ho.
    apply stage_outcome. exact H1.
Qed.

(** X3.  Given a selector that parses and an options object with data
    properties only, a call throws only when it is the first one (no
    observer yet) and its scope root is not a node: then it is a
    [TypeError].  In every other case it returns a handle for a new
    registration, whatever the values of the options and the document
    are. *)
Theorem call_returns_handle_or_type_error (sel : string) (opts : option loc)
    (w : world) :
  fst (querySelectorPerpetual sel opts w) =
  match observer w with
  | Some _ => Normal (VHandle (length (closures w)))
  | None =>
      match spec_scope_root w opts with
      | VNode _ => Normal (VHandle (length (closures w)))
      | _ => Throw TypeError
      end
  end.
Proof. apply call_outcome. Qed.

(** X4.  With [matchExisting] falsy a call processes nothing and marks
    nothing: the trace of processed elements is as before and the
    closure that was added is as created, with an empty map and an empty
    pipeline. *)
Theorem nothing_processed_without_matchExisting (sel : string)
    (opts : option loc) (w : world) :
  to_boolean (property (options (new_closure sel opts w)) "matchExisting") = false ->
  applied (snd (querySelectorPerpetual sel opts w)) = applied w /\
  closures (snd (querySelectorPerpetual sel opts w)) =
    closures w ++ [new_closure sel opts w].
Proof.
  intros Hoff. rewrite querySelectorPerpetual_stages. cbv zeta. rewrite Hoff.
  pose proof (ensure_observer_only_observer (length (closures w))
    (target (new_closure sel opts w))
    (with_closures (closures w ++ [new_closure sel opts w]) w))
    as (_ & _ & Hc & _ & Ha).
  destruct (ensure_observer _ _ _) as [[[] | e] w2]; simpl in *; auto.
Qed.

(** The scan on elements that are not marked and have distinct
    identities, while the pipeline is empty. *)
Lemma scan_processes_each r l w c :
  closures w !! r = Some c -> operations c = [] ->
  (forall n, n ∈ l -> elementInvocationMap c !! ident n = None) ->
  NoDup (map ident l) ->
  exists c',
    closures (snd (for_each l (process_element r) w)) !! r = Some c' /\
    gains_marks c c' /\
    (forall n, n ∈ l -> elementInvocationMap c' !! ident n = Some true) /\
    applied (snd (for_each l (process_element r) w)) =
      applied w ++ map (pair r) l.
Proof.
  revert w c. induction l as [| x rest IH]; intros w c Hc Hops Hfree Hnodup; simpl.
  - exists c. rewrite app_nil_r. repeat split; auto; try reflexivity.
    intros n Hn. inversion Hn.
  - set (w1 := with_closures (alter (mark x) r (closures w)) w).
    assert (closures w1 !! r = Some (mark x c)) as Hc1.
    { subst w1. simpl. rewrite list_lookup_alter_eq, Hc. reflexivity. }
    assert (process_element r x w =
            (Normal tt, with_applied (applied w1 ++ [(r, x)]) w1)) as Estep.
    { rewrite process_element_unfold, (closure_lookup _ _ _ Hc).
      unfold map_get. rewrite (Hfree x) by left. rewrite andb_false_r.
      apply applyOperations_empty.
      rewrite (closure_lookup _ _ _ Hc1). exact Hops. }
    rewrite bind_apply, Estep.
    inversion Hnodup as [| ? ? Hnotin Hrest]; subst.
    destruct (IH (with_applied (applied w1 ++ [(r, x)]) w1) (mark x c))
      as (c' & Hc' & Hg & Hmarks & Happ); auto.
    + intros n Hn. simpl. rewrite lookup_insert_ne.
      * apply Hfree. right. exact Hn.
      * intros E. apply Hnotin. rewrite E.
        apply list_elem_of_In, in_map, list_elem_of_In. exact Hn.
    + exists c'. repeat split; try apply Hg.
      * exact Hc'.
      * intros k Hk. apply Hg. apply mark_gains. exact Hk.
      * intros n Hn. apply elem_of_cons in Hn as [-> | Hn].
        -- apply Hg. simpl. apply lookup_insert_eq.
        -- apply Hmarks, Hn.
      * rewrite Happ. simpl. rewrite <- app_assoc. reflexivity.
Qed.

(** X5.  With [matchExisting] truthy, a call that does not throw runs
    [applyOperations] exactly once on every element that
    [document.querySelectorAll(selector)] finds, in document order,
    whatever the scope root is, marks each of them, and leaves its
    pipeline empty (the nodes of a document having identities of their
    own). *)
Theorem existing_matches_processed_in_document_order (sel : string)
    (opts : option loc) (w : world) :
  observer w <> None \/ (exists root, spec_scope_root w opts = VNode root) ->
  to_boolean (property (options (new_closure sel opts w)) "matchExisting") = true ->
  NoDup (map ident (querySelectorAll (document w) sel)) ->
  let r := length (closures w) in
  let w' := snd (querySelectorPerpetual sel opts w) in
  applied w' = applied w ++ map (pair r) (querySelectorAll (document w) sel) /\
  exists c, closures w' !! r = Some c /\ operations c = [] /\
    forall n, n ∈ querySelectorAll (document w) sel ->
              elementInvocationMap c !! ident n = Some true.
Proof.
  intros Hok Hon Hnodup r w'. subst w'.
  rewrite querySelectorPerpetual_stages. cbv zeta. rewrite Hon.
  fold r. set (c0 := new_closure sel opts w).
  set (w1 := with_closures (closures w ++ [c0]) w).
  assert (exists w2, ensure_observer r (target c0) w1 = (Normal tt, w2) /\
                     only_observer w1 w2) as (w2 & E & Hd & _ & Hc & _ & Ha).
  { pose proof (ensure_observer_only_observer r (target c0) w1) as Hobs.
    destruct (observer w) as [o |] eqn:Ho.
    - rewrite (ensure_observer_later r (target c0) o w1 Ho) in *. eauto.
    - destruct Hok as [Hok | [root Hroot]]; [congruence |].
      unfold c0 in *. rewrite target_is_scope_root, Hroot in *.
      rewrite (ensure_observer_first r root w1 Ho) in *. eauto. }
  rewrite E, match_existing_eq, Hd. simpl.
  assert (closures w2 !! r = Some c0) as H2.
  { rewrite Hc. simpl. apply list_lookup_middle. reflexivity. }
  assert (forall n, n ∈ querySelectorAll (document w) sel ->
                    elementInvocationMap c0 !! ident n = None) as Hfree
    by (intros n _; apply lookup_empty).
  destruct (scan_processes_each r (querySelectorAll (document w) sel) w2 c0
              H2 eq_refl Hfree Hnodup)
    as (c' & Hc' & Hg & Hmarks & Happ).
  assert (applied (snd (for_each (querySelectorAll (document w) sel)
                          (process_element r) w2))
          = applied w ++ map (pair r) (querySelectorAll (document w) sel)) as Ha'.
  { rewrite Happ, Ha. reflexivity. }
  destruct (for_each _ _ w2) as [[[] | e] w3]; simpl in *;
    (split; [exact Ha' |]; exists c'; repeat split; auto;
     destruct Hg as (_ & _ & _ & -> & _); reflexivity).
Qed.

End Calls.

(** ** What stays as it is *)

#[local] Instance grows_preorder : PreOrder grows.
Proof.
  split.
  - intros c. unfold grows. repeat split; auto. exists []. symmetry. apply app_nil_r.
  - intros a b c (?&?&?&(m1 & E1)&Hab) (?&?&?&(m2 & E2)&Hbc). unfold grows.
    repeat split; try congruence.
    + exists (m1 ++ m2). rewrite E2, E1, app_assoc. reflexivity.
    + intros k Hk. apply Hbc, Hab, Hk.
Qed.

#[local] Instance history_preorder : PreOrder history.
Proof.
  split.
  - intros w r c Hc. exists c. split; [exact Hc | reflexivity].
  - intros a b d Hab Hbd r c Hc. destruct (Hab r c Hc) as (c1 & Hc1 & G1).
    destruct (Hbd r c1 Hc1) as (c2 & Hc2 & G2).
    exists c2. split; [exact Hc2 | etransitivity; eassumption].
Qed.

#[local] Instance more_closures_preorder : PreOrder more_closures.
Proof. split; unfold more_closures; [intros w; lia | intros a b c; lia]. Qed.

Lemma gains_marks_grows c c' : gains_marks c c' -> grows c c'.
Proof.
  intros (?&?&?&Ho&Hk). repeat split; auto. exists []. rewrite Ho.
  symmetry. apply app_nil_r.
Qed.

Section Frames.
Context `{Platform}.

Lemma same_closures_history w w' : closures w' = closures w -> history w w'.
Proof. intros E r c Hc. exists c. rewrite E. split; [exact Hc | reflexivity]. Qed.

Lemma step_history e : preserves history (step e).
Proof.
  apply step_preserves; try apply _.
  - intros w c0 r c Hc. exists c. simpl.
    split; [apply lookup_app_l_Some, Hc | reflexivity].
  - intros r tgt w. apply same_closures_history.
    destruct (ensure_observer_only_observer r tgt w) as (_&_&?&_). assumption.
  - intros r n w r' c Hc.
    destruct (process_element_marks_only r n w) as (_&_&_&_&_&_&Hne&Hr).
    destruct (decide (r' = r)) as [-> | Hd].
    + destruct (Hr c Hc) as (c' & Hc' & Hg). exists c'.
      split; [exact Hc' | apply gains_marks_grows, Hg].
    + exists c. rewrite (Hne r' Hd). split; [exact Hc | reflexivity].
  - intros w h. apply same_closures_history. reflexivity.
  - intros w d. apply same_closures_history. reflexivity.
  - intros w r op r' c Hc. simpl. destruct (decide (r = r')) as [-> | Hd].
    + exists (push_operation op c). rewrite list_lookup_alter_eq, Hc.
      split; [reflexivity |]. unfold grows, push_operation. simpl.
      repeat split; eauto.
    + exists c. rewrite list_lookup_alter_ne by exact Hd.
      split; [exact Hc | reflexivity].
Qed.

(** X10.  Whatever happens after a call (further calls, chained
    operations, deliveries, changes of the document, the caller writing
    to the options object it passed), the registration keeps its
    selector, its options and its target; its pipeline is only extended
    at the end; and no mark of its map is taken away. *)
Theorem registration_settings_are_fixed (w : world) (r : regid)
    (c : registration) (later : list event) :
  closures w !! r = Some c ->
  exists c', closures (run later w) !! r = Some c' /\
    selector c' = selector c /\ options c' = options c /\
    target c' = target c /\
    (exists more, operations c' = operations c ++ more) /\
    forall k, elementInvocationMap c !! k = Some true ->
              elementInvocationMap c' !! k = Some true.
Proof.
  intros Hc.
  destruct (run_preserves history step_history later w r c Hc) as (c' & Hc' & Hg).
  exists c'. split; [exact Hc' | exact Hg].
Qed.

Lemma step_more_closures e : preserves more_closures (step e).
Proof.
  apply step_preserves; try apply _; unfold more_closures.
  - intros w c. simpl. rewrite length_app. lia.
  - intros r tgt w.
    destruct (ensure_observer_only_observer r tgt w) as (_&_&->&_). lia.
  - intros r n w.
    destruct (process_element_marks_only r n w) as (_&_&_&_&_&->&_). lia.
  - intros w h. simpl. lia.
  - intros w d. simpl. lia.
  - intros w r op. simpl. rewrite length_alter. lia.
Qed.

(** X6.  When the first call has no node as scope root (no [rootElement]
    given and no [body] in the document, say), it throws a [TypeError]
    without going through the existing elements, but the function
    property [observer] is already set: no later call subscribes the
    observer to anything, so no mutation is ever watched. *)
Theorem failed_first_call_leaves_no_subscription (sel : string)
    (opts : option loc) (w : world) (later : list event) :
  observer w = None -> observed w = [] ->
  (forall root, spec_scope_root w opts <> VNode root) ->
  let failed := querySelectorPerpetual sel opts w in
  fst failed = Throw TypeError /\
  applied (snd failed) = applied w /\
  observer (run later (snd failed)) = Some (length (closures w)) /\
  observed (run later (snd failed)) = [].
Proof.
  intros Ho Hs Hroot failed.
  assert (fst failed = Throw TypeError) as Hthrow.
  { subst failed. rewrite call_outcome, Ho.
    destruct (spec_scope_root w opts) eqn:E; try reflexivity.
    destruct (Hroot n). reflexivity. }
  assert (applied (snd failed) = applied w /\
          observer (snd failed) = Some (length (closures w)) /\
          observed (snd failed) = []) as (Ha & Ho1 & Hs1).
  { subst failed. rewrite querySelectorPerpetual_stages. cbv zeta.
    rewrite target_is_scope_root.
    unfold ensure_observer, bind, gets, modify. simpl. rewrite Ho.
    destruct (spec_scope_root w opts) eqn:E; simpl; auto.
    destruct (Hroot n). reflexivity. }
  split; [exact Hthrow |]. split; [exact Ha |].
  destruct (run_keeps_observer later (snd failed)) as (Ho2 & _ & Hs2);
    [congruence |].
  rewrite Ho2, Hs2. auto.
Qed.

Lemma observer_callback_keeps_heap r mutations w :
  heap (snd (observer_callback r mutations w)) = heap w.
Proof.
  destruct (observer_callback_marks_only r mutations w) as (_ & Hh & _).
  exact Hh.
Qed.

(** X13.  A direct call of [querySelectorPerpetual], a chained method
    and the callback of the observer never write to an object of the
    caller (only the prototype bindings do). *)
Theorem callers_objects_are_left_alone :
  (forall sel opts w, heap (snd (querySelectorPerpetual sel opts w)) = heap w) /\
  (forall h method f w, heap (snd (call_method h method f w)) = heap w) /\
  (forall mutations w, heap (snd (deliver mutations w)) = heap w).
Proof.
  split; [| split].
  - intros sel opts w. apply (querySelectorPerpetual_keeps_heap sel opts w).
  - intros h method f w.
    destruct (call_method_cases h method f w) as [(k & _ & E) | (_ & E)];
      rewrite E; reflexivity.
  - intros mutations w. unfold deliver.
    rewrite bind_apply. simpl. rewrite bind_apply. simpl.
    destruct (observer w) as [o |]; [| reflexivity].
    destruct (observed w); [reflexivity |].
    rewrite bind_apply.
    pose proof (observer_callback_keeps_heap o mutations w) as Hh.
    destruct (observer_callback o mutations w) as [[[] | e] w1]; exact Hh.
Qed.

(** X11.  A delivery in which no added node is an element matching the
    selector (removals, text and comment nodes, elements that do not
    match, also when nodes below them would match) changes nothing and
    does not throw. *)
Theorem delivery_without_match_changes_nothing
    (mutations : list MutationRecord) (w : world) :
  (forall r, observer w = Some r ->
     Forall (fun n => qualifies (selector (closure r w)) n = false)
       (added_nodes mutations)) ->
  deliver mutations w = (Normal VUndefined, w).
Proof.
  intros Hnone. unfold deliver. rewrite bind_apply. simpl.
  rewrite bind_apply. simpl. destruct (observer w) as [r |]; [| reflexivity].
  destruct (observed w); [reflexivity |].
  rewrite bind_apply, observer_callback_processing.
  specialize (Hnone r eq_refl).
  assert (List.filter (qualifies (selector (closure r w))) (added_nodes mutations)
          = []) as ->; [| reflexivity].
  induction Hnone as [| x rest Hx _ IH]; simpl; [reflexivity |].
  rewrite Hx. exact IH.
Qed.



End Frames.

(** ** Who processes what *)

#[local] Instance runs_only_preorder r : PreOrder (runs_only r).
Proof.
  split.
  - intros w. exists []. rewrite app_nil_r. auto.
  - intros a b c (m1 & E1 & F1) (m2 & E2 & F2). exists (m1 ++ m2).
    rewrite E2, E1, app_assoc. split; [reflexivity | apply Forall_app; auto].
Qed.

Lemma processed_by_app r l1 l2 :
  processed_by r (l1 ++ l2) = processed_by r l1 ++ processed_by r l2.
Proof. unfold processed_by. rewrite List.filter_app, map_app. reflexivity. Qed.

Lemma processed_by_same r n : processed_by r [(r, n)] = [n].
Proof. unfold processed_by. simpl. rewrite Nat.eqb_refl. reflexivity. Qed.

Lemma processed_by_other r r' n : r' <> r -> processed_by r [(r', n)] = [].
Proof.
  intros Hne. unfold processed_by. simpl.
  destruct (Nat.eqb_spec r' r); [contradiction | reflexivity].
Qed.

Lemma tidy_ext r w w' :
  closures w' = closures w -> applied w' = applied w -> tidy r w -> tidy r w'.
Proof. intros Ec Ea. unfold tidy. rewrite Ec, Ea. auto. Qed.

Lemma push_tidy r w c0 :
  tidy r w -> tidy r (with_closures (closures w ++ [c0]) w).
Proof.
  unfold tidy. simpl. intros Ht.
  destruct (closures w !! r) as [c |] eqn:Hc.
  - rewrite (lookup_app_l_Some _ _ _ _ Hc). exact Ht.
  - rewrite Ht. destruct ((closures w ++ [c0]) !! r); [| reflexivity].
    intros _. split; [constructor |]. intros n Hn. inversion Hn.
Qed.

Section Processing.
Context `{Platform}.

Lemma process_element_runs_only r n :
  preserves (runs_only r) (process_element r n).
Proof.
  intros w. rewrite process_element_unfold. destruct (negb _ && _).
  - reflexivity.
  - set (w1 := with_closures _ w).
    destruct (applyOperations_state r n w1) as (_&_&_&_&_&_&Ha).
    exists [(r, n)]. split; [exact Ha | repeat constructor].
Qed.

Lemma match_existing_runs_only r sel (b : bool) :
  preserves (runs_only r) (if b then match_existing r sel else ret tt).
Proof.
  destruct b; [| apply preserves_ret].
  apply preserves_bind; [apply preserves_gets | intros found].
  apply preserves_for_each. intros x. apply process_element_runs_only.
Qed.

Lemma observer_callback_runs_only r mutations :
  preserves (runs_only r) (observer_callback r mutations).
Proof.
  intros w. rewrite observer_callback_processing.
  apply (preserves_for_each (R := runs_only r)). intros x.
  apply process_element_runs_only.
Qed.

Lemma querySelectorPerpetual_runs_only sel opts w :
  runs_only (length (closures w)) w (snd (querySelectorPerpetual sel opts w)).
Proof.
  destruct (querySelectorPerpetual_state sel opts w) as (w2 & b & (_&_&_&_&Ha) & ->).
  destruct (match_existing_runs_only (length (closures w)) sel b w2)
    as (more & E & F).
  exists more. rewrite E, Ha. auto.
Qed.

(** On an event only the registration named by [runner] runs its
    pipeline. *)
Lemma step_runs e w :
  exists more, applied (snd (step e w)) = applied w ++ more /\
               Forall (fun p => Some (fst p) = runner e w) more.
Proof.
  assert (forall (P : regid * node -> Prop) (w0 : world),
            exists more : list (regid * node),
              applied w0 = applied w0 ++ more /\ Forall P more) as Hnone.
  { intros P w0. exists []. rewrite app_nil_r. auto. }
  assert (forall (P : regid * node -> Prop) (w0 : world),
            exists more : list (regid * node),
              applied (snd (ret VUndefined w0)) = applied w0 ++ more /\
              Forall P more) as Hsame.
  { intros P w0. apply Hnone. }
  destruct e; simpl.
  - destruct (querySelectorPerpetual_runs_only sel opts w) as (more & E & F).
    exists more. split; [exact E |].
    eapply Forall_impl; [exact F |]. intros p ->. reflexivity.
  - unfold prototype_querySelectorPerpetual. rewrite bind_apply.
    destruct opts as [l |]; simpl;
      match goal with
      | |- context [querySelectorPerpetual ?s ?o ?w0] =>
          destruct (querySelectorPerpetual_runs_only s o w0) as (more & E & F)
      end;
      exists more; (split; [exact E |]);
      (eapply Forall_impl; [exact F |]); intros p ->; reflexivity.
  - destruct (call_method_cases h method f w) as [(k & _ & E) | (_ & E)];
      rewrite E; simpl; apply Hnone.
  - destruct (observer w) as [o |] eqn:Ho.
    + destruct (observed w) as [| s subs] eqn:Hs.
      * unfold deliver, bind, gets. simpl. rewrite Ho, Hs. apply Hsame.
      * rewrite (deliver_state mutations w o Ho) by (rewrite Hs; discriminate).
        destruct (observer_callback_runs_only o mutations w) as (more & E & F).
        exists more. split; [exact E |].
        eapply Forall_impl; [exact F |]. intros p ->. reflexivity.
    + unfold deliver, bind, gets. simpl. rewrite Ho. apply Hsame.
  - apply Hnone.
  - apply Hnone.
  - apply Hnone.
Qed.

(** X7.  Once the observer exists, a registration it does not belong to
    never runs its pipeline again after its own call has returned:
    whatever is added to the document later, and whatever selector it
    was registered with, no element is processed by it. *)
Theorem other_registrations_never_process_again (w : world) (o r : regid)
    (c : registration) (later : list event) :
  observer w = Some o -> closures w !! r = Some c -> r <> o ->
  exists more, applied (run later w) = applied w ++ more /\
               forall n, (r, n) ∉ more.
Proof.
  intros Ho Hc Hne. revert w c Ho Hc.
  induction later as [| e rest IH]; intros w c Ho Hc; simpl.
  - exists []. rewrite app_nil_r. split; [reflexivity |].
    intros n Hn. inversion Hn.
  - destruct (step_runs e w) as (m1 & E1 & F1).
    destruct (step_keeps_observer e w) as (Ho1 & _); [congruence |].
    destruct (step_history e w r c Hc) as (c1 & Hc1 & _).
    destruct (IH (snd (step e w)) c1) as (m2 & E2 & F2);
      [congruence | exact Hc1 |].
    exists (m1 ++ m2). rewrite E2, E1, app_assoc. split; [reflexivity |].
    intros n Hn. apply elem_of_app in Hn as [Hn | Hn]; [| exact (F2 n Hn)].
    rewrite Forall_forall in F1. specialize (F1 (r, n)).
    assert (Some r = runner e w) as Hrun.
    { apply F1. exact Hn. }
    apply lookup_lt_Some in Hc.
    destruct e; simpl in Hrun; inversion Hrun; subst; try lia; congruence.
Qed.

(** ** Each element at most once *)

Lemma process_element_tidy r r' n w :
  r' < length (closures w) -> tidy r w ->
  tidy r (snd (process_element r' n w)).
Proof.
  intros Hin Ht. rewrite process_element_unfold.
  destruct (negb _ && _) eqn:Hskip; [exact Ht |].
  set (w1 := with_closures _ w).
  destruct (applyOperations_state r' n w1) as (_&_&Hc&_&_&_&Ha).
  unfold tidy in *. rewrite Hc, Ha. subst w1. simpl.
  rewrite processed_by_app.
  destruct (decide (r' = r)) as [-> | Hne].
  - destruct (lookup_lt_is_Some_2 _ _ Hin) as [c Hlook].
    rewrite Hlook in Ht. rewrite list_lookup_alter_eq, Hlook. simpl.
    rewrite processed_by_same. intros Hm. destruct (Ht Hm) as [Hnd Hmk].
    rewrite (closure_lookup _ _ _ Hlook), Hm in Hskip. simpl in Hskip.
    assert (elementInvocationMap c !! ident n <> Some true) as Hfresh.
    { intros E. unfold map_get in Hskip. rewrite E in Hskip. discriminate. }
    split.
    + rewrite map_app. apply NoDup_app. split; [exact Hnd |].
      split; [| repeat constructor; intros Hx; inversion Hx].
      intros k Hk Hk'. apply list_elem_of_singleton in Hk'. subst k.
      apply list_elem_of_In, in_map_iff in Hk as (m & Em & Hmem).
      apply Hfresh. rewrite <- Em. apply Hmk, list_elem_of_In, Hmem.
    + intros m Hmem. apply elem_of_app in Hmem as [Hmem | Hmem].
      * apply mark_gains, Hmk, Hmem.
      * apply list_elem_of_singleton in Hmem. subst m. apply lookup_insert_eq.
  - rewrite list_lookup_alter_ne by exact Hne.
    rewrite (processed_by_other r r' n Hne), app_nil_r. exact Ht.
Qed.

Lemma for_each_tidy r r' l w :
  r' < length (closures w) -> tidy r w ->
  tidy r (snd (for_each l (process_element r') w)).
Proof.
  revert w. induction l as [| x rest IH]; intros w Hin Ht; simpl; [exact Ht |].
  rewrite bind_apply.
  pose proof (process_element_tidy r r' x w Hin Ht) as Ht1.
  pose proof (process_element_marks_only r' x w) as (_&_&_&_&_&Hlen&_).
  destruct (process_element r' x w) as [[[] | e] w1]; simpl in *; [| exact Ht1].
  apply IH; [rewrite Hlen; exact Hin | exact Ht1].
Qed.

Lemma querySelectorPerpetual_tidy sel opts w r :
  tidy r w -> tidy r (snd (querySelectorPerpetual sel opts w)).
Proof.
  intros Ht.
  destruct (querySelectorPerpetual_state sel opts w) as (w2 & b & (_&_&Hc&_&Ha) & ->).
  assert (tidy r w2) as Ht2.
  { apply (tidy_ext r _ w2 Hc Ha), push_tidy, Ht. }
  destruct b; [| exact Ht2]. rewrite match_existing_eq.
  apply for_each_tidy; [| exact Ht2].
  rewrite Hc. simpl. rewrite length_app. simpl. lia.
Qed.

Lemma step_tidy e w r :
  owner_in_range w -> tidy r w -> tidy r (snd (step e w)).
Proof.
  intros Hown Ht. destruct e; simpl.
  - apply querySelectorPerpetual_tidy, Ht.
  - unfold prototype_querySelectorPerpetual. rewrite bind_apply.
    destruct opts as [l |]; simpl; apply querySelectorPerpetual_tidy;
      apply (tidy_ext r w); auto.
  - destruct (call_method_cases h method f w) as [(k & _ & E) | (_ & E)];
      rewrite E; simpl; [| exact Ht].
    unfold tidy in *. simpl. destruct (decide (h = r)) as [-> | Hne].
    + rewrite list_lookup_alter_eq. destruct (closures w !! r); exact Ht.
    + rewrite list_lookup_alter_ne by exact Hne. exact Ht.
  - destruct (observer w) as [o |] eqn:Ho.
    + destruct (observed w) as [| s subs] eqn:Hs.
      * unfold deliver, bind, gets. simpl. rewrite Ho, Hs. exact Ht.
      * rewrite (deliver_state mutations w o Ho) by (rewrite Hs; discriminate).
        rewrite observer_callback_processing.
        apply for_each_tidy; [apply Hown, Ho | exact Ht].
    + unfold deliver, bind, gets. simpl. rewrite Ho. exact Ht.
  - exact Ht.
  - exact Ht.
  - exact Ht.
Qed.

Lemma querySelectorPerpetual_owner sel opts w :
  owner_in_range w -> owner_in_range (snd (querySelectorPerpetual sel opts w)).
Proof.
  intros Hown o Ho.
  assert (length (closures w) < length (closures (snd (querySelectorPerpetual sel opts w))))
    as Hgrow.
  { destruct (querySelectorPerpetual_state sel opts w)
      as (w2 & b & (_&_&Hc&_) & ->).
    destruct (scan_marks_only (length (closures w)) sel b w2) as (_&_&_&_&_&->&_).
    rewrite Hc. simpl. rewrite length_app. simpl. lia. }
  destruct (observer w) as [o0 |] eqn:Ho0.
  - destruct (step_keeps_observer (Register sel opts) w) as (E & _);
      [congruence |].
    simpl in E. rewrite E, Ho0 in Ho. inversion Ho; subst.
    specialize (Hown o Ho0). lia.
  - assert (observer (snd (querySelectorPerpetual sel opts w))
            = Some (length (closures w))) as E.
    { rewrite querySelectorPerpetual_stages. cbv zeta.
      set (r0 := length (closures w)).
      set (c0 := new_closure sel opts w).
      set (w1 := with_closures (closures w ++ [c0]) w).
      assert (forall tgt, observer (snd (ensure_observer r0 tgt w1)) = Some r0)
        as E1.
      { intros tgt. unfold ensure_observer, bind, gets, modify. simpl.
        rewrite Ho0. destruct tgt; reflexivity. }
      specialize (E1 (target c0)).
      destruct (ensure_observer r0 (target c0) w1) as [[[] | e] w2];
        cbn [snd] in *; [| exact E1].
      pose proof (scan_marks_only r0 sel
        (to_boolean (property (options c0) "matchExisting")) w2)
        as (_&_&Hobs&_).
      set (scan := (if to_boolean (property (options c0) "matchExisting")
                    then match_existing r0 sel else ret tt) w2) in *.
      destruct scan as [[[] | e] w3]; cbn [snd] in *; congruence. }
    rewrite E in Ho. inversion Ho; subst. exact Hgrow.
Qed.

Lemma step_owner e w : owner_in_range w -> owner_in_range (snd (step e w)).
Proof.
  intros Hown.
  assert (forall w', observer w' = observer w ->
                     length (closures w) <= length (closures w') ->
                     owner_in_range w') as Hkeep.
  { intros w' Eo Hlen o Ho. rewrite Eo in Ho. specialize (Hown o Ho). lia. }
  destruct e; simpl.
  - apply querySelectorPerpetual_owner, Hown.
  - unfold prototype_querySelectorPerpetual. rewrite bind_apply.
    destruct opts as [l |]; simpl; apply querySelectorPerpetual_owner;
      intros o Ho; apply (Hown o Ho).
  - destruct (call_method_cases h method f w) as [(k & _ & E) | (_ & E)];
      rewrite E; simpl; [| exact Hown].
    apply Hkeep; simpl; [reflexivity | rewrite length_alter; lia].
  - pose proof (step_more_closures (Deliver mutations) w) as Hlen.
    destruct (observer w) as [o |] eqn:Ho.
    + destruct (step_keeps_observer (Deliver mutations) w) as (E & _);
        [congruence |].
      apply Hkeep; [simpl in E; congruence | exact Hlen].
    + unfold deliver, bind, gets. simpl. rewrite Ho. exact Hown.
  - exact Hown.
  - exact Hown.
  - exact Hown.
Qed.

Lemma run_tidy events w r :
  owner_in_range w -> tidy r w -> tidy r (run events w).
Proof.
  revert w. induction events as [| e rest IH]; intros w Hown Ht; simpl.
  - exact Ht.
  - apply IH; [apply step_owner, Hown | apply step_tidy; assumption].
Qed.

(** X8.  From the loading of the page on, a registration with
    [matchReappearance] falsy runs its pipeline at most once on each
    identity: among the nodes it has processed, in its scan and in all
    deliveries, no identity occurs twice. *)
Theorem each_identity_processed_at_most_once (d : node) (events : list event)
    (r : regid) (c : registration) :
  closures (run events (initial d)) !! r = Some c ->
  to_boolean (property (options c) "matchReappearance") = false ->
  NoDup (map ident (processed_by r (applied (run events (initial d))))).
Proof.
  intros Hc Hm.
  assert (tidy r (run events (initial d))) as Ht.
  { apply run_tidy.
    - intros o Ho. discriminate.
    - reflexivity. }
  unfold tidy in Ht. rewrite Hc in Ht. apply Ht, Hm.
Qed.

(** ** The scope root of the bindings *)

Lemma querySelectorPerpetual_closure sel opts w :
  exists c',
    closures (snd (querySelectorPerpetual sel opts w)) !! length (closures w)
      = Some c' /\
    gains_marks (new_closure sel opts w) c'.
Proof.
  destruct (querySelectorPerpetual_state sel opts w) as (w2 & b & (_&_&Hc&_) & ->).
  destruct (scan_marks_only (length (closures w)) sel b w2) as (_&_&_&_&_&_&_&Hr).
  apply Hr. rewrite Hc. simpl. apply list_lookup_middle. reflexivity.
Qed.

Lemma binding_call this sel o w :
  (exists obj, heap w !! o = Some obj /\ obj !! "rootElement" = Some (VNode this)) ->
  fst (querySelectorPerpetual sel (Some o) w) = Normal (VHandle (length (closures w))) /\
  exists c,
    closures (snd (querySelectorPerpetual sel (Some o) w)) !! length (closures w)
      = Some c /\
    target c = VNode this /\ selector c = sel.
Proof.
  intros (obj & Hobj & Hroot).
  assert (spec_scope_root w (Some o) = VNode this) as Hscope.
  { unfold spec_scope_root. rewrite Hobj, Hroot. reflexivity. }
  split.
  - rewrite call_outcome, Hscope. destruct (observer w); reflexivity.
  - destruct (querySelectorPerpetual_closure sel (Some o) w)
      as (c & Hc & Hsel & _ & Htgt & _).
    exists c. split; [exact Hc |].
    rewrite Htgt, Hsel, target_is_scope_root, Hscope. auto.
Qed.

(** X12.  Given a selector that parses and an options object that is
    extensible and has data properties only (or no options object), a
    call through a prototype binding returns a handle and takes the
    receiver as its scope root, also when the options object of the
    caller names another [rootElement]. *)
Theorem binding_scope_root_is_receiver (this : node) (sel : string)
    (opts : option loc) (w : world) :
  (forall l, opts = Some l -> is_Some (heap w !! l)) ->
  let result := prototype_querySelectorPerpetual this sel opts w in
  fst result = Normal (VHandle (length (closures w))) /\
  exists c, closures (snd result) !! length (closures w) = Some c /\
            target c = VNode this /\ selector c = sel.
Proof.
  intros Hwf result. subst result.
  unfold prototype_querySelectorPerpetual. rewrite bind_apply.
  destruct opts as [l |]; simpl.
  - destruct (Hwf l eq_refl) as [obj Hobj].
    apply (binding_call this sel l (with_heap _ w)). simpl.
    exists (Object_assign obj {[ "rootElement" := VNode this ]}).
    rewrite list_lookup_alter_eq, Hobj. split; [reflexivity |].
    unfold Object_assign. apply lookup_union_Some_l, lookup_singleton_eq.
  - apply (binding_call this sel (length (heap w)) (with_heap _ w)). simpl.
    exists (Object_assign ∅ {[ "rootElement" := VNode this ]}).
    split; [apply list_lookup_middle; reflexivity |].
    unfold Object_assign. apply lookup_union_Some_l, lookup_singleton_eq.
Qed.

End Processing.

(** ** The further properties at work on the page *)

Module MoreOnPage.
Import Page.

#[local] Existing Instance browser.

(** X1 on the page: with [forEach(spy)] chained, processing [item3]
    throws. *)
Lemma pipeline_of_functions_calls_none_on_page :
  applyOperations 0 item3 watching =
  (if forallb is_sort (operations (closure 0 watching))
   then Normal tt else Throw TypeError,
   with_applied (applied watching ++ [(0, item3)]) watching).
Proof.
  apply (pipeline_of_functions_calls_none 0 item3 watching).
  vm_compute. constructor; [| constructor].
  exists spy. split; [reflexivity | intros i; reflexivity].
Defined.

(** X4 on the page: a call with [{ matchExisting: false }]. *)
Lemma nothing_processed_without_matchExisting_on_page :
  applied (snd (querySelectorPerpetual ".item" (Some 0) with_options_object))
    = applied with_options_object /\
  closures (snd (querySelectorPerpetual ".item" (Some 0) with_options_object))
    = closures with_options_object
      ++ [new_closure ".item" (Some 0) with_options_object].
Proof.
  apply (nothing_processed_without_matchExisting ".item" (Some 0)
           with_options_object).
  vm_compute. reflexivity.
Defined.

(** X5 on the page: the first call processes both items, in order. *)
Lemma existing_matches_processed_on_page :
  let w' := snd (querySelectorPerpetual ".item" None (initial page)) in
  applied w' =
    applied (initial page)
    ++ map (pair 0) (querySelectorAll (document (initial page)) ".item") /\
  exists c, closures w' !! 0 = Some c /\ operations c = [] /\
    forall n, n ∈ querySelectorAll (document (initial page)) ".item" ->
              elementInvocationMap c !! ident n = Some true.
Proof.
  apply (existing_matches_processed_in_document_order ".item" None (initial page)).
  - right. exists body. vm_compute. reflexivity.
  - vm_compute. reflexivity.
  - refine (bool_decide_unpack _ _). vm_compute. exact I.
Defined.

(** X6 on the page: a script that runs before the body exists. *)
Lemma failed_first_call_on_page :
  let later := [Edit page; Register ".item" None; Deliver [added item3]] in
  let failed := querySelectorPerpetual ".item" None (initial early_page) in
  fst failed = Throw TypeError /\
  applied (snd failed) = applied (initial early_page) /\
  observer (run later (snd failed)) = Some 0 /\
  observed (run later (snd failed)) = [].
Proof.
  apply (failed_first_call_leaves_no_subscription ".item" None
           (initial early_page)
           [Edit page; Register ".item" None; Deliver [added item3]]).
  - reflexivity.
  - reflexivity.
  - intros root. vm_compute. discriminate.
Defined.

(** X7 on the page: the registration for [div] is the second one; a
    [div] added later is not processed by it. *)
Lemma other_registrations_never_process_again_on_page :
  exists more,
    applied (run [Deliver [added item3]; Chain 1 "sort" (VFun spy);
                  Deliver [added item4]] twice)
      = applied twice ++ more /\
    forall n, (1, n) ∉ more.
Proof.
  apply (other_registrations_never_process_again twice 0 1 (closure 1 twice)
           [Deliver [added item3]; Chain 1 "sort" (VFun spy);
            Deliver [added item4]]).
  - vm_compute. reflexivity.
  - vm_compute. reflexivity.
  - discriminate.
Defined.

(** X8 on the page: [item1] and [item3] are reported more than once. *)
Lemma each_identity_processed_at_most_once_on_page :
  let events := [Register ".item" None;
                 Deliver [added item1; added item3]; Deliver [added item3]] in
  NoDup (map ident (processed_by 0 (applied (run events (initial page))))).
Proof.
  apply (each_identity_processed_at_most_once page
           [Register ".item" None;
            Deliver [added item1; added item3]; Deliver [added item3]]
           0
           (closure 0 (run [Register ".item" None;
                            Deliver [added item1; added item3];
                            Deliver [added item3]] (initial page)))).
  - vm_compute. reflexivity.
  - vm_compute. reflexivity.
Defined.


(** X10 on the page: the caller switches [matchReappearance] off in the
    object it passed; the registration still has it on. *)
Lemma registration_settings_are_fixed_on_page :
  let later := [SetProperty 0 "matchReappearance" (VBool false);
                Chain 0 "map" (VFun textOf); Deliver [added item3]] in
  exists c', closures (run later reappearing) !! 0 = Some c' /\
    selector c' = selector (closure 0 reappearing) /\
    options c' = options (closure 0 reappearing) /\
    target c' = target (closure 0 reappearing) /\
    (exists more, operations c' = operations (closure 0 reappearing) ++ more) /\
    forall k, elementInvocationMap (closure 0 reappearing) !! k = Some true ->
              elementInvocationMap c' !! k = Some true.
Proof.
  apply (registration_settings_are_fixed reappearing 0 (closure 0 reappearing)
           [SetProperty 0 "matchReappearance" (VBool false);
            Chain 0 "map" (VFun textOf); Deliver [added item3]]).
  vm_compute. reflexivity.
Defined.

(** X11 on the page: a batch that removes an item and adds a text node
    and an element that only contains an item. *)
Lemma delivery_without_match_on_page :
  let batch := [{| addedNodes := [TextNode 20 "x"; wrapper];
                   removedNodes := [item1] |}] in
  deliver batch watching = (Normal VUndefined, watching).
Proof.
  apply (delivery_without_match_changes_nothing
           [{| addedNodes := [TextNode 20 "x"; wrapper];
               removedNodes := [item1] |}] watching).
  intros r E. vm_compute in E. inversion E. subst r.
  vm_compute. repeat constructor.
Defined.

(** X12 on the page: [container.querySelectorPerpetual(".item",
    { rootElement: body })] has the container as its target. *)
Lemma binding_scope_root_is_receiver_on_page :
  let result :=
    prototype_querySelectorPerpetual container ".item" (Some 0) with_root_object in
  fst result = Normal (VHandle 0) /\
  exists c, closures (snd result) !! 0 = Some c /\
            target c = VNode container /\ selector c = ".item".
Proof.
  apply (binding_scope_root_is_receiver container ".item" (Some 0)
           with_root_object).
  intros l E. inversion E. subst l. vm_compute. eexists. reflexivity.
Defined.

(** The hypothesis of X1 is needed: a function that has been given a
    property [0] holding [textOf] is read as the argument list
    [[textOf]], and [map] then calls [textOf]. *)
Lemma indexed_property_is_taken_as_callback :
  let w := @run browser_with_indexed
             [Register ".item" None; Chain 0 "map" (VFun indexed)]
             (initial page) in
  fst (@applyOperations browser_with_indexed 0 item3 w) = Normal tt /\
  calls (snd (@applyOperations browser_with_indexed 0 item3 w)) =
    [(textOf, [VNode item3; VNum 0; VArr [VNode item3]])].
Proof. vm_compute. repeat split. Qed.

End MoreOnPage.
